(** * The Bender walker (bender.py): a shallow embedding and its properties

    The Python module keeps one mutable [Bender] object and drives it with
    [go] until [finished].  The embedding below threads that object through
    a state-and-exception monad: a method is a function from the object to a
    result (a value or a raised exception) and the object as the method left
    it, so that what a method mutated before it raised stays visible.

    Data follows the source: the board is a list of rows, each a list of
    one-character cell codes (the script builds every row with [list(...)],
    so no two rows are the same object), positions are Python integers
    (negative indices wrap, as Python list indexing does), the teleport
    index is a dict or [None], the move history is a list of long direction
    names.  On one-character strings the [in] tests of the source against
    '#X' and against the start marker are membership and equality. *)

From Stdlib Require Import Ascii.
From stdpp Require Import base list gmap strings.

(** ** Python list indexing *)

Module py.

(** Exceptions the module can raise: three builtins and the module's own
    classes ([BenderObstacle] is declared by the source and never raised). *)
Inductive exn : Set :=
| IndexError
| TypeError
| KeyError
| BenderObstacle
| BenderTrapped.

Inductive result (A : Type) : Type :=
| Ok (a : A)
| Raise (e : exn).
Global Arguments Ok {A} a.
Global Arguments Raise {A} e.

(** [l[i]] resolves a negative [i] against the length before the bounds
    check; [index] is the physical slot, if any. *)
Definition index {A} (l : list A) (i : Z) : option nat :=
  let n := Z.of_nat (length l) in
  let j := if bool_decide (i < 0)%Z then (i + n)%Z else i in
  if bool_decide (0 ≤ j < n)%Z then Some (Z.to_nat j) else None.

Definition getitem {A} (l : list A) (i : Z) : result A :=
  match index l i ≫= (l !!.) with
  | Some a => Ok a
  | None => Raise IndexError
  end.

Definition setitem {A} (l : list A) (i : Z) (v : A) : result (list A) :=
  match index l i with
  | Some k => Ok (<[k:=v]> l)
  | None => Raise IndexError
  end.

(** [enumerate(l)] *)
Definition enumerate {A} (l : list A) : list (Z * A) :=
  imap (λ i a, (Z.of_nat i, a)) l.

(** [str.lower] on a one-character string.  Only the letters A to Z are
    mapped; no other character lowercases to a key of [directions], so the
    membership test that uses it is not affected by the rest. *)
Definition lower (c : ascii) : ascii :=
  let n := N_of_ascii c in
  if bool_decide (65 ≤ n ≤ 90)%N then ascii_of_N (n + 32) else c.

End py.

(** ** The module bender *)

Module bender.
Import py.

Record Direction := mkDirection { dx : Z; dy : Z }.

(** The four keys of the dicts [directions] and [DIRECTION_LONG_NAMES]. *)
Inductive Compass : Set := s | e | n | w.

Global Instance Compass_eq_dec : EqDecision Compass.
Proof. solve_decision. Defined.

Definition key (c : Compass) : ascii :=
  match c with s => "s" | e => "e" | n => "n" | w => "w" end%char.

(** [k in directions], returning the key found. *)
Definition compass_of (k : ascii) : option Compass :=
  if decide (k = key s) then Some s
  else if decide (k = key e) then Some e
  else if decide (k = key n) then Some n
  else if decide (k = key w) then Some w
  else None.

Definition priorities : list Compass := [s; e; n; w].

Definition directions (c : Compass) : Direction :=
  match c with
  | w => mkDirection 0 (-1)
  | n => mkDirection (-1) 0
  | e => mkDirection 0 1
  | s => mkDirection 1 0
  end.

Definition BENDER_CHAR : ascii := "@".
Definition BOOTH_CHAR : ascii := "$".
Definition INVERTER_CHAR : ascii := "I".
Definition BEER_CHAR : ascii := "B".
Definition OBSTACLE_BREAKABLE : ascii := "X".
Definition OBSTACLE_UNBREAKABLE : ascii := "#".
Definition TELEPORT_CHAR : ascii := "T".
Definition TIMEOUT : Z := 8000.

Definition DIRECTION_LONG_NAMES (c : Compass) : string :=
  match c with
  | n => "NORTH"
  | s => "SOUTH"
  | e => "EAST"
  | w => "WEST"
  end.

Abbreviation board := (list (list ascii)).

(** *** class Bender *)
Module Bender.

Record t := mk {
  rows : board;
  x : Z;
  y : Z;
  teleport : option (gmap (Z * Z) (Z * Z));
  history : list string;
  current_direction : Compass;
  priorities : list Compass;
  in_beer_state : bool
}.

(** Methods: the object goes in, the result and the object come out. *)
Definition M (A : Type) : Type := t → result A * t.

Definition ret {A} (a : A) : M A := λ b, (Ok a, b).
Definition bind {A B} (m : M A) (f : A → M B) : M B :=
  λ b, match m b with
       | (Ok a, b') => f a b'
       | (Raise ex, b') => (Raise ex, b')
       end.
Definition raise {A} (ex : exn) : M A := λ b, (Raise ex, b).
Definition gets {A} (f : t → A) : M A := λ b, (Ok (f b), b).
Definition modify (f : t → t) : M unit := λ b, (Ok tt, f b).

Declare Scope bender_scope.
Delimit Scope bender_scope with bender.
Notation "v ← m ; k" := (bind m (λ v, k))
  (at level 20, m at level 100, k at level 200, only parsing) : bender_scope.
Notation "m ;; k" := (bind m (λ _, k))
  (at level 100, k at level 200, only parsing, right associativity) : bender_scope.
Local Open Scope bender_scope.

Definition set_x (v : Z) (b : t) : t :=
  mk (rows b) v (y b) (teleport b) (history b) (current_direction b)
     (priorities b) (in_beer_state b).
Definition set_y (v : Z) (b : t) : t :=
  mk (rows b) (x b) v (teleport b) (history b) (current_direction b)
     (priorities b) (in_beer_state b).
Definition set_rows (v : board) (b : t) : t :=
  mk v (x b) (y b) (teleport b) (history b) (current_direction b)
     (priorities b) (in_beer_state b).
Definition set_history (v : list string) (b : t) : t :=
  mk (rows b) (x b) (y b) (teleport b) v (current_direction b)
     (priorities b) (in_beer_state b).
Definition set_current_direction (v : Compass) (b : t) : t :=
  mk (rows b) (x b) (y b) (teleport b) (history b) v
     (priorities b) (in_beer_state b).
Definition set_priorities (v : list Compass) (b : t) : t :=
  mk (rows b) (x b) (y b) (teleport b) (history b) (current_direction b)
     v (in_beer_state b).
Definition set_in_beer_state (v : bool) (b : t) : t :=
  mk (rows b) (x b) (y b) (teleport b) (history b) (current_direction b)
     (priorities b) v.

(** [rows[i][j]] *)
Definition cell (g : board) (i j : Z) : result ascii :=
  match getitem g i with
  | Ok row => getitem row j
  | Raise ex => Raise ex
  end.

(** [rows[i][j] = v]: the row object is fetched, then updated in place. *)
Definition set_cell (g : board) (i j : Z) (v : ascii) : result board :=
  match getitem g i with
  | Ok row =>
      match setitem row j v with
      | Ok row' => setitem g i row'
      | Raise ex => Raise ex
      end
  | Raise ex => Raise ex
  end.

Definition get_teleporters (rows : board) : option (gmap (Z * Z) (Z * Z)) :=
  let teleport_locations :=
    '(row_index, row) ← enumerate rows;
    '(col_index, col) ← enumerate row;
    if decide (col = TELEPORT_CHAR) then [(row_index, col_index)] else [] in
  match teleport_locations !! 0%nat, teleport_locations !! 1%nat with
  | Some t0, Some t1 => Some (<[t1:=t0]> (<[t0:=t1]> ∅))
  | _, _ => None
  end.

Definition obstacles (b : t) : list ascii :=
  if in_beer_state b then ["#"%char] else ["#"%char; "X"%char].

(** The first start marker in row-major order, or [None]. *)
Definition get_initial_cell (rows : board) : option (Z * Z) :=
  head ('(row_index, row) ← enumerate rows;
        '(col_index, col) ← enumerate row;
        if decide (col = BENDER_CHAR) then [(row_index, col_index)] else []).

(** Unpacking [None] into [self.x, self.y] is a [TypeError]. *)
Definition __init__ (rows : board) : result t :=
  match get_initial_cell rows with
  | Some (x0, y0) =>
      Ok (mk rows x0 y0 (get_teleporters rows) [] s bender.priorities false)
  | None => Raise TypeError
  end.

Definition current_cell : M ascii :=
  λ b, (cell (rows b) (x b) (y b), b).

Definition get_cell (compass : Compass) : M ascii :=
  λ b, let d := directions compass in
       (cell (rows b) (x b + dx d) (y b + dy d), b).

Definition check_for_obstacle (compass : Compass) : M bool :=
  c ← get_cell compass;
  obs ← gets obstacles;
  ret (bool_decide (c ∈ obs)).

Definition move (compass : Compass) : M unit :=
  let d := directions compass in
  modify (λ b, set_x (x b + dx d) b);;
  modify (λ b, set_y (y b + dy d) b);;
  modify (λ b, set_history (history b ++ [DIRECTION_LONG_NAMES compass]) b);;
  modify (set_current_direction compass).

Definition check_destroy_obstacle : M unit :=
  c ← current_cell;
  beer ← gets in_beer_state;
  if bool_decide (c = OBSTACLE_BREAKABLE) && beer then
    λ b, match set_cell (rows b) (x b) (y b) " " with
         | Ok g => (Ok tt, set_rows g b)
         | Raise ex => (Raise ex, b)
         end
  else ret tt.

(** [self.teleport[(self.x, self.y)]]: subscripting [None] is a
    [TypeError], a missing key a [KeyError]. *)
Definition teleport_lookup : M (Z * Z) :=
  λ b, match teleport b with
       | None => (Raise TypeError, b)
       | Some d =>
           match d !! (x b, y b) with
           | Some p => (Ok p, b)
           | None => (Raise KeyError, b)
           end
       end.

Definition check_teleport : M unit :=
  c ← current_cell;
  if bool_decide (c = TELEPORT_CHAR) then
    _ ← teleport_lookup;
    p ← teleport_lookup;
    modify (λ b, set_y p.2 (set_x p.1 b))
  else ret tt.

Definition check_beer : M unit :=
  c ← current_cell;
  if bool_decide (c = BEER_CHAR) then
    modify (λ b, set_in_beer_state (negb (in_beer_state b)) b)
  else ret tt.

Definition check_inverter : M unit :=
  c ← current_cell;
  if bool_decide (c = INVERTER_CHAR) then
    modify (λ b, set_priorities (reverse (priorities b)) b)
  else ret tt.

Definition check_current_cell : M unit :=
  check_beer;;
  check_inverter;;
  check_teleport;;
  check_destroy_obstacle.

Definition on_forced_direction : M bool :=
  c ← current_cell;
  ret (bool_decide (is_Some (compass_of (lower c)))).

(** [self.move(self.current_cell.lower())]; [move] looks the key up in
    [directions], a [KeyError] when it is not one. *)
Definition move_in_forced_direction : M unit :=
  c ← current_cell;
  match compass_of (lower c) with
  | Some compass => move compass
  | None => raise KeyError
  end.

(** The [for] loop of [move_via_priorities] over the list it was started
    on. *)
Fixpoint move_via (ds : list Compass) : M unit :=
  match ds with
  | [] => raise BenderTrapped
  | direction :: ds' =>
      blocked ← check_for_obstacle direction;
      if negb blocked then move direction else move_via ds'
  end.

Definition move_via_priorities : M unit :=
  ds ← gets priorities;
  move_via ds.

Definition go : M unit :=
  check_current_cell;;
  forced ← on_forced_direction;
  if forced then move_in_forced_direction
  else
    compass ← gets current_direction;
    blocked ← check_for_obstacle compass;
    if negb blocked then move compass
    else move_via_priorities.

Definition finished : M bool :=
  c ← current_cell;
  if bool_decide (c = BOOTH_CHAR) then ret true
  else h ← gets history; ret (bool_decide (TIMEOUT < Z.of_nat (length h))%Z).

End Bender.

(** *** The driver loop of the script: [while not bender.finished: bender.go()]

    [None] means the fuel ran out before the loop ended. *)
Fixpoint drive (fuel : nat) (b : Bender.t) : option (result unit * Bender.t) :=
  match fuel with
  | O => None
  | S fuel' =>
      match Bender.finished b with
      | (Ok true, b') => Some (Ok tt, b')
      | (Ok false, b') =>
          match Bender.go b' with
          | (Ok _, b'') => drive fuel' b''
          | (Raise ex, b'') => Some (Raise ex, b'')
          end
      | (Raise ex, b') => Some (Raise ex, b')
      end
  end.

(** What the script prints once the loop has ended. *)
Definition report (b : Bender.t) : list string :=
  if bool_decide (TIMEOUT ≤ Z.of_nat (length (Bender.history b)))%Z then ["LOOP"]
  else Bender.history b.

End bender.

(** * Vocabulary of the properties

    Definitions used to state what the methods do: physical board slots,
    the object after a move or after the entry effects, the obstacle test in
    the words of the specification, runs of several steps, and the boards of
    the scenarios. *)

Import py bender.
Import Bender.
Local Open Scope Z_scope.
Implicit Types (g : board) (i j : Z) (ri ci : nat) (c v : ascii).
Implicit Types (b : Bender.t) (d : Compass) (p : Z * Z).

(** The cell stored at a physical slot of the board. *)
Definition phys g ri ci : option ascii := g !! ri ≫= (.!! ci).

(** The physical slot a pair of Python coordinates denotes. *)
Definition slot g i j : option (nat * nat) :=
  ri ← index g i; row ← g !! ri; ci ← index row j; Some (ri, ci).

(** The object after [move(d)]. *)
Definition moved d b : Bender.t :=
  mk (rows b) (x b + dx (directions d)) (y b + dy (directions d))
     (teleport b) (history b ++ [DIRECTION_LONG_NAMES d]) d
     (priorities b) (in_beer_state b).

(** The cell next to the walker in direction [d]. *)
Definition neighbour b d : result ascii :=
  cell (rows b) (x b + dx (directions d)) (y b + dy (directions d)).

(** Blocked, in the words of the specification: the neighbouring cell is
    the unbreakable obstacle, or the breakable one while the pass-through
    flag is false. *)
Definition blocked b d : result bool :=
  match neighbour b d with
  | Ok c =>
      Ok (bool_decide (c = OBSTACLE_UNBREAKABLE ∨
                       (c = OBSTACLE_BREAKABLE ∧ in_beer_state b = false)))
  | Raise ex => Raise ex
  end.

(** What [go] does once the entry effects are applied. *)
Definition decide_and_move : M unit :=
  (forced ← on_forced_direction;
   if forced then move_in_forced_direction
   else
     compass ← gets current_direction;
     blocked ← check_for_obstacle compass;
     if negb blocked then move compass
     else move_via_priorities)%bender.

(** The board with the cell at Python coordinates [p] emptied. *)
Definition erase (g : board) (p : Z * Z) : board :=
  match set_cell g p.1 p.2 " " with
  | Ok g' => g'
  | Raise _ => g
  end.

(** The coordinate paired with the walker's in the teleport index. *)
Definition paired b : option (Z * Z) := t ← teleport b; t !! (x b, y b).

(** Where the teleport check leaves a walker standing on a cell [c]. *)
Definition position_after_teleport b c : option (Z * Z) :=
  if bool_decide (c = TELEPORT_CHAR) then paired b else Some (x b, y b).

(** The object after the four entry effects, in the words of the
    specification: [c] is the code of the cell occupied when the step
    starts, [p] the position after the teleport check and [c'] the code of
    the cell at [p]. *)
Definition entry_effects b c p c' : Bender.t :=
  let beer := if bool_decide (c = BEER_CHAR)
              then negb (in_beer_state b) else in_beer_state b in
  let prio := if bool_decide (c = INVERTER_CHAR)
              then reverse (priorities b) else priorities b in
  let g := if bool_decide (c' = OBSTACLE_BREAKABLE) && beer
           then erase (rows b) p else rows b in
  mk g p.1 p.2 (teleport b) (history b) (current_direction b) prio beer.

(** The object when an entry effect raised: the flag and the priority list
    are already updated, the rest is untouched. *)
Definition entry_partial b c p : Bender.t :=
  let beer := if bool_decide (c = BEER_CHAR)
              then negb (in_beer_state b) else in_beer_state b in
  let prio := if bool_decide (c = INVERTER_CHAR)
              then reverse (priorities b) else priorities b in
  mk (rows b) p.1 p.2 (teleport b) (history b) (current_direction b) prio beer.

(** [check_current_cell] computed in full. *)
Definition entry_result b : result unit * Bender.t :=
  match cell (rows b) (x b) (y b) with
  | Raise ex => (Raise ex, b)
  | Ok c =>
      if bool_decide (c = TELEPORT_CHAR) then
        match teleport b with
        | None => (Raise TypeError, entry_partial b c (x b, y b))
        | Some t =>
            match t !! (x b, y b) with
            | None => (Raise KeyError, entry_partial b c (x b, y b))
            | Some p =>
                match cell (rows b) p.1 p.2 with
                | Ok c' => (Ok tt, entry_effects b c p c')
                | Raise ex => (Raise ex, entry_partial b c p)
                end
            end
        end
      else (Ok tt, entry_effects b c (x b, y b) c)
  end.

(** The two spellings of each direction letter: the cell codes that force a
    direction. *)
Definition letters d : list ascii :=
  match d with
  | s => ["s"; "S"]
  | e => ["e"; "E"]
  | n => ["n"; "N"]
  | w => ["w"; "W"]
  end%char.

(** [k] calls of [go] in a row, none of which raised. *)
Fixpoint steps (k : nat) b : option Bender.t :=
  match k with
  | O => Some b
  | S k' =>
      match go b with
      | (Ok _, b') => steps k' b'
      | (Raise _, _) => None
      end
  end.

(** How many of those [k] calls started with the walker on an inverter. *)
Fixpoint inverter_entries (k : nat) b : nat :=
  match k with
  | O => O
  | S k' =>
      ((match cell (rows b) (x b) (y b) with
        | Ok c => if bool_decide (c = INVERTER_CHAR) then 1 else 0
        | Raise _ => 0
        end) +
       (match go b with
        | (Ok _, b') => inverter_entries k' b'
        | (Raise _, _) => 0
        end))%nat
  end.

(** ** Boards and objects of the scenarios *)

Definition board_of (l : list string) : board := String.list_ascii_of_string <$> l.

(** The board of the class docstring: a walled 5x5 room, start at (1,1),
    goal at (3,3). *)
Definition docstring_board : board :=
  board_of ["#####";
            "#@  #";
            "#   #";
            "#  $#";
            "#####"].

Definition docstring_start : Bender.t :=
  mk docstring_board 1 1 None [] s bender.priorities false.

(** The same walker two moves later, facing the south wall. *)
Definition docstring_corner : Bender.t :=
  mk docstring_board 3 1 None ["SOUTH"; "SOUTH"] s bender.priorities false.

(** A walker walled in on all four sides. *)
Definition cage_board : board := board_of ["###"; "#@#"; "###"].

Definition cage_start : Bender.t :=
  mk cage_board 1 1 None [] s bender.priorities false.

(** A walker that has stepped west onto a tile forcing it further west,
    into the wall. *)
Definition forced_board : board := board_of ["####"; "#w@#"; "####"].

Definition forced_walker : Bender.t :=
  mk forced_board 1 1 None ["WEST"] w bender.priorities false.

(** A pair of teleporters, the walker standing on the second one. *)
Definition teleport_board : board :=
  board_of ["#####";
            "#@ T#";
            "#T  #";
            "#  $#";
            "#####"].

Definition teleport_walker : Bender.t :=
  mk teleport_board 2 1 (get_teleporters teleport_board) ["SOUTH"] s
     bender.priorities false.

(** A closed room without a goal: the walker circles until the ceiling. *)
Definition loop_board : board := board_of ["####"; "#@ #"; "#  #"; "####"].

Definition loop_start : Bender.t :=
  mk loop_board 1 1 None [] s bender.priorities false.

(** The object the driver loop ends on, from [loop_start]: after south and
    east the walker goes north and south along the east wall, and the
    8001st move is a move north. *)
Definition loop_end : Bender.t :=
  mk loop_board 1 2 None
     (["SOUTH"; "EAST"] ++ concat (replicate 3999 ["NORTH"; "SOUTH"]) ++ ["NORTH"])
     n bender.priorities false.

(** A corridor with an inverter south of the start. *)
Definition inverter_board : board :=
  board_of ["###"; "#@#"; "#I#"; "# #"; "###"].

Definition inverter_start : Bender.t :=
  mk inverter_board 1 1 None [] s bender.priorities false.

(** The coordinates of the cells holding the code [ch], in row-major order:
    the double loop of [get_teleporters] and of [get_initial_cell]. *)
Definition positions (ch : ascii) g : list (Z * Z) :=
  '(row_index, row) ← enumerate g;
  '(col_index, col) ← enumerate row;
  if decide (col = ch) then [(row_index, col_index)] else [].

(** The number of cells of the board holding the code [ch]. *)
Definition count_code (ch : ascii) g : nat := length (filter (.= ch) (concat g)).

(** A board with a single teleporter, south of the start. *)
Definition lone_board : board := board_of ["###"; "#@#"; "#T#"; "###"].

Definition lone_start : Bender.t :=
  mk lone_board 1 1 None [] s bender.priorities false.

Definition lone_walker : Bender.t :=
  mk lone_board 2 1 None ["SOUTH"] s bender.priorities false.

(** A board without a start marker. *)
Definition blank_board : board := board_of ["###"; "# #"; "###"].

(** The walker stands on a breakable obstacle. *)
Definition on_breakable b : bool :=
  match cell (rows b) (x b) (y b) with
  | Ok c => bool_decide (c = OBSTACLE_BREAKABLE)
  | Raise _ => false
  end.

(** [g'] has the shape of [g] and its cells, except that breakable obstacles
    may have gone. *)
Definition worn g g' : Prop :=
  length g' = length g ∧
  (∀ ri, length <$> g' !! ri = length <$> g !! ri) ∧
  (∀ ri ci c, phys g ri ci = Some c → c ≠ OBSTACLE_BREAKABLE →
              phys g' ri ci = Some c).

(** Every coordinate the teleport index leads to holds a teleporter. *)
Definition teleport_sound b : Prop :=
  ∀ t q p, teleport b = Some t → t !! q = Some p →
           cell (rows b) p.1 p.2 = Ok TELEPORT_CHAR.

(** A corridor with a beer and a breakable obstacle on the way to the goal,
    the walker two moves in (standing on the obstacle, flag set) and one
    move later. *)
Definition beer_board : board :=
  board_of ["###"; "#@#"; "#B#"; "#X#"; "#$#"; "###"].

Definition beer_start : Bender.t :=
  mk beer_board 1 1 None [] s bender.priorities false.

Definition beer_walker : Bender.t :=
  mk beer_board 3 1 None ["SOUTH"; "SOUTH"] s bender.priorities true.

Definition beer_after : Bender.t :=
  mk (board_of ["###"; "#@#"; "#B#"; "# #"; "#$#"; "###"]) 4 1 None
     ["SOUTH"; "SOUTH"; "SOUTH"] s bender.priorities true.

(** ** Further vocabulary *)

(** How many of [k] calls of [go] started with the walker on a beer. *)
Fixpoint beer_entries (k : nat) b : nat :=
  match k with
  | O => O
  | S k' =>
      ((match cell (rows b) (x b) (y b) with
        | Ok c => if bool_decide (c = BEER_CHAR) then 1 else 0
        | Raise _ => 0
        end) +
       (match go b with
        | (Ok _, b') => beer_entries k' b'
        | (Raise _, _) => 0
        end))%nat
  end.

(** The walker of the docstring board on the goal. *)
Definition docstring_goal : Bender.t :=
  mk docstring_board 3 3 None ["SOUTH"; "SOUTH"; "EAST"; "EAST"] e
     bender.priorities false.

(** The teleport board before the first move. *)
Definition teleport_start : Bender.t :=
  mk teleport_board 1 1 (get_teleporters teleport_board) [] s
     bender.priorities false.

(** A board with three teleporters, the third one south of the start, and
    the walker standing on it after its first move. *)
Definition crowded_board : board :=
  board_of ["#####";
            "#T T#";
            "#@  #";
            "#T  #";
            "#####"].

Definition crowded_start : Bender.t :=
  mk crowded_board 2 1 (get_teleporters crowded_board) [] s
     bender.priorities false.

Definition crowded_walker : Bender.t :=
  mk crowded_board 3 1 (get_teleporters crowded_board) ["SOUTH"] s
     bender.priorities false.

(** A board with two start markers. *)
Definition twin_board : board := board_of ["####"; "# @#"; "#@ #"; "####"].

Definition twin_start : Bender.t :=
  mk twin_board 1 2 None [] s bender.priorities false.

(** A cell of the board that is not the unbreakable obstacle. *)
Definition open_cell g ri ci : bool :=
  match phys g ri ci with
  | Some c => bool_decide (c ≠ OBSTACLE_UNBREAKABLE)
  | None => false
  end.

Definition on_board g ri ci : bool := bool_decide (is_Some (phys g ri ci)).

(** All slots of the board. *)
Definition slots g : list (nat * nat) :=
  '(ri, row) ← imap pair g; (λ ci, (ri, ci)) <$> seq 0 (length row).

(** Every cell other than '#' has a cell of the board on each of its four
    sides, and so lies in neither the first row nor the first column: what
    a border of '#' gives.  [walled] checks it, [enclosed] states it. *)
Definition walled g : bool :=
  forallb (λ '(ri, ci),
             implb (open_cell g ri ci)
                   ((0 <? ri)%nat && (0 <? ci)%nat &&
                    on_board g (ri - 1) ci && on_board g (S ri) ci &&
                    on_board g ri (ci - 1) && on_board g ri (S ci)))
          (slots g).

Definition enclosed g : Prop :=
  ∀ ri ci, open_cell g ri ci = true →
    (0 < ri)%nat ∧ (0 < ci)%nat ∧
    is_Some (phys g (ri - 1) ci) ∧ is_Some (phys g (S ri) ci) ∧
    is_Some (phys g ri (ci - 1)) ∧ is_Some (phys g ri (S ci)).

(** No cell holds a direction letter. *)
Definition no_forced g : bool :=
  forallb (λ c, forallb (λ d, bool_decide (c ∉ letters d)) [s; e; n; w])
          (concat g).

Definition letterless g : Prop :=
  ∀ ri ci c d, phys g ri ci = Some c → c ∉ letters d.

(** The teleport index leads to teleporter cells at non-negative
    coordinates. *)
Definition teleport_onto b : Prop :=
  ∀ t q p, teleport b = Some t → t !! q = Some p →
    ∃ ri ci, p = (Z.of_nat ri, Z.of_nat ci) ∧
             phys (rows b) ri ci = Some TELEPORT_CHAR.

(** The walker is at non-negative coordinates, on a cell of the board other
    than '#'. *)
Definition inside b : Prop :=
  ∃ ri ci, x b = Z.of_nat ri ∧ y b = Z.of_nat ci ∧
           open_cell (rows b) ri ci = true.

(** The walker of [forced_board] after the forced move, on the west wall in
    column 0. *)
Definition edge_walker : Bender.t :=
  mk forced_board 1 0 None ["WEST"; "WEST"] w bender.priorities false.

(** The walker of [teleport_board] after the step that teleported it: moved
    on from the destination (1,3) to the cell south of it. *)
Definition teleport_landed : Bender.t :=
  mk teleport_board 2 3 (get_teleporters teleport_board) ["SOUTH"; "SOUTH"] s
     bender.priorities false.

(** A board open to the north above the start: a tile there forces the
    walker over the top edge, to row coordinate -1, which denotes the last
    row, where the two teleporters are. *)
Definition wrap_board : board := board_of ["#N##"; "#@##"; "####"; "#TT#"].

Definition wrap_start : Bender.t :=
  mk wrap_board 1 1 (get_teleporters wrap_board) [] s bender.priorities false.

Definition wrap_walker : Bender.t :=
  mk wrap_board (-1) 1 (get_teleporters wrap_board) ["NORTH"; "NORTH"] n
     bender.priorities false.
(** * Properties *)


(** ** Boards and Python coordinates *)

Section boards.

Lemma getitem_Ok {A} (l : list A) i a :
  getitem l i = Ok a ↔ ∃ k, index l i = Some k ∧ l !! k = Some a.
Proof.
  unfold getitem. destruct (index l i) as [k|] eqn:Hk; simpl.
  - destruct (l !! k) eqn:Hl; split.
    + intros [= <-]. eauto.
    + intros (k' & [= <-] & Hk'). congruence.
    + done.
    + intros (k' & [= <-] & Hk'). congruence.
  - split; [done | intros (k' & [=] & _)].
Qed.

Lemma getitem_Raise {A} (l : list A) i ex :
  getitem l i = Raise ex → ex = IndexError.
Proof. unfold getitem. case_match; congruence. Qed.

Lemma cell_Raise g i j ex : Bender.cell g i j = Raise ex → ex = IndexError.
Proof.
  unfold Bender.cell. destruct (getitem g i) as [row|ex'] eqn:H.
  - apply getitem_Raise.
  - intros [= <-]. by apply getitem_Raise in H.
Qed.

Lemma cell_Ok g i j c :
  Bender.cell g i j = Ok c ↔
  ∃ ri ci, slot g i j = Some (ri, ci) ∧ phys g ri ci = Some c.
Proof.
  unfold Bender.cell, slot, phys. split.
  - destruct (getitem g i) as [row|] eqn:Hrow; [|done].
    apply getitem_Ok in Hrow as (ri & -> & Hri).
    intros (ci & Hci & Hc)%getitem_Ok. exists ri, ci. simpl.
    rewrite Hri. simpl. by rewrite Hci.
  - intros (ri & ci & Hs & Hc).
    destruct (index g i) as [ri'|] eqn:Hi; [simpl in Hs|done].
    destruct (g !! ri') as [row|] eqn:Hrow; [simpl in Hs|done].
    destruct (index row j) as [ci'|] eqn:Hj; [simpl in Hs|done].
    injection Hs as -> ->. rewrite Hrow in Hc. simpl in Hc.
    assert (getitem g i = Ok row) as -> by (apply getitem_Ok; eauto).
    apply getitem_Ok; eauto.
Qed.

(** Writing a cell that can be read succeeds, and changes that slot only. *)
Lemma set_cell_Ok g i j c v :
  Bender.cell g i j = Ok c →
  ∃ ri ci g', slot g i j = Some (ri, ci) ∧ Bender.set_cell g i j v = Ok g' ∧
    phys g' ri ci = Some v ∧
    (∀ ri' ci', (ri', ci') ≠ (ri, ci) → phys g' ri' ci' = phys g ri' ci') ∧
    length g' = length g ∧
    (∀ ri', length <$> g' !! ri' = length <$> g !! ri').
Proof.
  intros (ri & ci & Hs & Hc)%cell_Ok. exists ri, ci.
  unfold slot in Hs. unfold Bender.set_cell, phys in *.
  destruct (index g i) as [ri'|] eqn:Hi; [simpl in Hs|done].
  destruct (g !! ri') as [row|] eqn:Hrow; [simpl in Hs|done].
  destruct (index row j) as [ci'|] eqn:Hj; [simpl in Hs|done].
  injection Hs as -> ->. rewrite Hrow in Hc. simpl in Hc.
  assert (getitem g i = Ok row) as -> by (apply getitem_Ok; eauto).
  unfold setitem. rewrite Hj, Hi. eexists.
  split; [unfold slot; rewrite Hi; simpl; rewrite Hrow; simpl; by rewrite Hj|].
  split; [done|]. apply lookup_lt_Some in Hrow as Hlt, Hc as Hlt'.
  split; [|split; [|split]].
  - rewrite list_lookup_insert_eq by done. simpl.
    by rewrite list_lookup_insert_eq.
  - intros ri' ci' Hne. destruct (decide (ri' = ri)) as [->|].
    + rewrite list_lookup_insert_eq by done. rewrite Hrow. simpl.
      apply list_lookup_insert_ne. congruence.
    + by rewrite list_lookup_insert_ne.
  - by rewrite length_insert.
  - intros ri'. destruct (decide (ri' = ri)) as [->|].
    + rewrite list_lookup_insert_eq by done. rewrite Hrow. simpl.
      by rewrite length_insert.
    + by rewrite list_lookup_insert_ne.
Qed.

End boards.

(** ** The methods, one by one *)

Section methods.

Lemma move_spec d b : move d b = (Ok tt, moved d b).
Proof. reflexivity. Qed.

Lemma check_for_obstacle_spec d b : check_for_obstacle d b = (blocked b d, b).
Proof.
  unfold check_for_obstacle, blocked, neighbour, bind, get_cell, gets, ret,
    obstacles.
  destruct (cell _ _ _) as [c|ex]; [|done]. do 2 f_equal.
  apply bool_decide_ext. unfold OBSTACLE_UNBREAKABLE, OBSTACLE_BREAKABLE.
  destruct (in_beer_state b);
    rewrite ?elem_of_cons, elem_of_nil; intuition congruence.
Qed.

Lemma go_unfold b :
  go b = match check_current_cell b with
         | (Ok _, b1) => decide_and_move b1
         | (Raise ex, b1) => (Raise ex, b1)
         end.
Proof. reflexivity. Qed.


Lemma move_via_trapped b ds :
  Forall (λ d, blocked b d = Ok true) ds →
  move_via ds b = (Raise BenderTrapped, b).
Proof.
  induction 1 as [|d ds Hd _ IH]; simpl; [done|].
  unfold bind. by rewrite check_for_obstacle_spec, Hd.
Qed.

Lemma move_via_inv ds b r b' :
  move_via ds b = (r, b') →
  (r = Ok tt ∧ ∃ d, d ∈ ds ∧ blocked b d = Ok false ∧ b' = moved d b) ∨
  (∃ ex, r = Raise ex ∧ b' = b).
Proof.
  induction ds as [|d ds IH]; simpl.
  - intros [= <- <-]. right. eauto.
  - unfold bind. rewrite check_for_obstacle_spec.
    destruct (blocked b d) as [[]|ex] eqn:Hd; simpl.
    + intros [[-> (d' & ? & ? & ->)]|?]%IH; [left|by right].
      split; [done|]. exists d'. set_solver.
    + intros [= <- <-]. left. split; [done|]. exists d. set_solver.
    + intros [= <- <-]. right. eauto.
Qed.

(** A successful decision is exactly one move; a failed one leaves the
    object as it found it. *)
Lemma decide_and_move_inv b r b' :
  decide_and_move b = (r, b') →
  (r = Ok tt ∧ ∃ d, b' = moved d b) ∨ (∃ ex, r = Raise ex ∧ b' = b).
Proof.
  unfold decide_and_move, on_forced_direction, move_in_forced_direction,
    move_via_priorities, bind, current_cell, ret, gets, raise.
  destruct (cell _ _ _) as [c|ex] eqn:Hc; [|intros [= <- <-]; right; eauto].
  case_bool_decide as Hf.
  - rewrite Hc. destruct (compass_of (lower c)) as [d|].
    + rewrite move_spec. intros [= <- <-]. left. eauto.
    + intros [= <- <-]. right. eauto.
  - rewrite check_for_obstacle_spec.
    destruct (blocked b (current_direction b)) as [[]|ex]; simpl.
    + intros [[-> (d & _ & _ & ->)]|?]%move_via_inv; [left|right]; eauto.
    + intros [= <- <-]. left. eauto.
    + intros [= <- <-]. right. eauto.
Qed.

(** The entry effects, given the code of the cell the walker is on. *)
Lemma check_beer_spec b c :
  cell (rows b) (x b) (y b) = Ok c →
  check_beer b =
    (Ok tt, if bool_decide (c = BEER_CHAR)
            then set_in_beer_state (negb (in_beer_state b)) b else b).
Proof.
  intros Hc. unfold check_beer, bind, current_cell. rewrite Hc.
  by case_bool_decide.
Qed.

Lemma check_inverter_spec b c :
  cell (rows b) (x b) (y b) = Ok c →
  check_inverter b =
    (Ok tt, if bool_decide (c = INVERTER_CHAR)
            then set_priorities (reverse (priorities b)) b else b).
Proof.
  intros Hc. unfold check_inverter, bind, current_cell. rewrite Hc.
  by case_bool_decide.
Qed.

Lemma check_teleport_spec b c :
  cell (rows b) (x b) (y b) = Ok c →
  check_teleport b =
    if bool_decide (c = TELEPORT_CHAR) then
      match teleport b with
      | None => (Raise TypeError, b)
      | Some t =>
          match t !! (x b, y b) with
          | Some p => (Ok tt, set_y p.2 (set_x p.1 b))
          | None => (Raise KeyError, b)
          end
      end
    else (Ok tt, b).
Proof.
  intros Hc. unfold check_teleport, bind, current_cell. rewrite Hc.
  case_bool_decide; [|done]. unfold teleport_lookup.
  destruct (teleport b) as [t|] eqn:Ht; [|done].
  destruct (t !! (x b, y b)) as [p|] eqn:Hp; [|done].
  by rewrite Ht, Hp.
Qed.

Lemma check_destroy_obstacle_spec b c :
  cell (rows b) (x b) (y b) = Ok c →
  check_destroy_obstacle b =
    (Ok tt, if bool_decide (c = OBSTACLE_BREAKABLE) && in_beer_state b
            then set_rows (erase (rows b) (x b, y b)) b else b).
Proof.
  intros Hc. unfold check_destroy_obstacle, bind, current_cell, gets.
  rewrite Hc. destruct (_ && _); [|done]. unfold erase. simpl.
  destruct (set_cell_Ok _ _ _ _ " "%char Hc) as (? & ? & g' & _ & -> & _).
  done.
Qed.

End methods.

(** ** The entry effects as a whole *)

Section entry.

Lemma t_eta b :
  mk (rows b) (x b) (y b) (teleport b) (history b) (current_direction b)
     (priorities b) (in_beer_state b) = b.
Proof. by destruct b. Qed.

Lemma check_current_cell_eval b : check_current_cell b = entry_result b.
Proof.
  unfold check_current_cell, entry_result, bind.
  destruct (cell (rows b) (x b) (y b)) as [c|ex] eqn:Hc; last first.
  { unfold check_beer, bind, current_cell. by rewrite Hc. }
  rewrite (check_beer_spec b c Hc).
  set (ba := if bool_decide (c = BEER_CHAR) then _ else b).
  assert (rows ba = rows b ∧ x ba = x b ∧ y ba = y b ∧
          teleport ba = teleport b ∧ priorities ba = priorities b)
    as (Hr & Hx & Hy & Ht & Hp) by (subst ba; by case_bool_decide).
  rewrite (check_inverter_spec ba c) by (by rewrite Hr, Hx, Hy).
  set (bb := if bool_decide (c = INVERTER_CHAR) then _ else ba).
  assert (rows bb = rows b ∧ x bb = x b ∧ y bb = y b ∧ teleport bb = teleport b)
    as (Hr' & Hx' & Hy' & Ht') by (subst bb; by case_bool_decide).
  assert (bb = entry_partial b c (x b, y b)) as Hbb.
  { subst bb ba. unfold entry_partial.
    repeat case_bool_decide; simpl; by rewrite ?t_eta. }
  rewrite (check_teleport_spec bb c) by (by rewrite Hr', Hx', Hy').
  rewrite Ht', Hx', Hy'.
  assert (∀ p c', cell (rows b) p.1 p.2 = Ok c' →
            check_destroy_obstacle (set_y p.2 (set_x p.1 bb)) =
            (Ok tt, entry_effects b c p c')) as Hdestroy.
  { intros p c' Hc'. rewrite (check_destroy_obstacle_spec _ c')
      by (simpl; by rewrite Hr').
    rewrite Hbb. unfold entry_effects, entry_partial. simpl.
    by destruct (_ && _), p. }
  case_bool_decide as HT.
  - destruct (teleport b) as [t|]; [|by rewrite Hbb].
    destruct (t !! (x b, y b)) as [p|]; [|by rewrite Hbb].
    destruct (cell (rows b) p.1 p.2) as [c'|ex] eqn:Hc'; [by apply Hdestroy|].
    unfold check_destroy_obstacle, bind, current_cell. simpl.
    rewrite Hr', Hc', Hbb. done.
  - rewrite <-(Hdestroy (x b, y b) c Hc). simpl. f_equal.
    rewrite <-Hx', <-Hy'. by destruct bb.
Qed.

(** The specification's account of the entry effects. *)
Lemma check_current_cell_spec b c p c' :
  cell (rows b) (x b) (y b) = Ok c →
  position_after_teleport b c = Some p →
  cell (rows b) p.1 p.2 = Ok c' →
  check_current_cell b = (Ok tt, entry_effects b c p c').
Proof.
  intros Hc Hp Hc'. rewrite check_current_cell_eval. unfold entry_result.
  rewrite Hc. unfold position_after_teleport, paired in Hp.
  case_bool_decide.
  - destruct (teleport b) as [t|]; [simpl in Hp|done].
    by rewrite Hp, Hc'.
  - injection Hp as <-. simpl in Hc'. congruence.
Qed.

End entry.


(** A closed decidable proposition, settled by evaluation. *)
Ltac by_compute := apply (bool_decide_unpack _); vm_compute; exact I.

(** ** Forced directions *)

Section forced.

Lemma compass_of_lower c d :
  bool_decide (compass_of (lower c) = Some d) = bool_decide (c ∈ letters d).
Proof. destruct c as [[] [] [] [] [] [] [] []], d; vm_compute; reflexivity. Qed.

Lemma forced_iff c d : compass_of (lower c) = Some d ↔ c ∈ letters d.
Proof.
  rewrite <-(bool_decide_spec (compass_of _ = _)), compass_of_lower.
  apply bool_decide_spec.
Qed.

Lemma not_forced c : (∀ d, c ∉ letters d) → compass_of (lower c) = None.
Proof.
  intros H. destruct (compass_of (lower c)) as [d|] eqn:Hd; [|done].
  apply forced_iff in Hd. by destruct (H d).
Qed.

(** A cell that forces a direction triggers no entry effect. *)
Lemma forced_plain c d :
  c ∈ letters d →
  c ≠ BEER_CHAR ∧ c ≠ INVERTER_CHAR ∧ c ≠ TELEPORT_CHAR ∧ c ≠ OBSTACLE_BREAKABLE.
Proof.
  destruct d; simpl; rewrite !elem_of_cons, elem_of_nil;
    intros [->|[->|[]]]; done.
Qed.

Lemma entry_effects_id b c :
  c ≠ BEER_CHAR → c ≠ INVERTER_CHAR → c ≠ OBSTACLE_BREAKABLE →
  entry_effects b c (x b, y b) c = b.
Proof.
  intros. unfold entry_effects.
  rewrite !bool_decide_eq_false_2 by done. simpl. apply t_eta.
Qed.

End forced.

(** ** One step *)

Section step.



(** C3: on a cell whose code is a direction letter in either case, [go]
    moves in that direction.  Nothing is assumed about the neighbouring
    cells: no obstacle test is made, and neither the current direction nor
    the priority list is consulted. *)
Theorem go_forced_direction b c d :
  cell (rows b) (x b) (y b) = Ok c →
  c ∈ letters d →
  go b = (Ok tt, moved d b).
Proof.
  intros Hc Hd. destruct (forced_plain c d Hd) as (HB & HI & HT & HX).
  rewrite go_unfold, check_current_cell_eval. unfold entry_result.
  rewrite Hc, bool_decide_eq_false_2 by done.
  rewrite entry_effects_id by done.
  unfold decide_and_move, on_forced_direction, move_in_forced_direction,
    bind, current_cell, ret.
  apply forced_iff in Hd. rewrite Hc, Hd. simpl. by rewrite Hc, Hd.
Qed.

Lemma go_forced_direction_witness :
  blocked forced_walker w = Ok true ∧
  go forced_walker = (Ok tt, moved w forced_walker).
Proof.
  split; [reflexivity|].
  apply (go_forced_direction forced_walker "w" w); [reflexivity|].
  by_compute.
Defined.

(** C5: when the current direction and every direction of the priority list
    are blocked, [go] raises [BenderTrapped] and returns: the object is left
    as the entry effects made it, with no move recorded, and the driver loop
    ends on that exception rather than on [finished]. *)
Theorem go_trapped b b1 c :
  check_current_cell b = (Ok tt, b1) →
  cell (rows b1) (x b1) (y b1) = Ok c →
  (∀ d, c ∉ letters d) →
  blocked b1 (current_direction b1) = Ok true →
  Forall (λ d, blocked b1 d = Ok true) (priorities b1) →
  go b = (Raise BenderTrapped, b1) ∧
  history b1 = history b ∧
  (BenderTrapped ∉ [IndexError; TypeError; KeyError; BenderObstacle]) ∧
  (∀ fuel, finished b = (Ok false, b) →
           drive (S fuel) b = Some (Raise BenderTrapped, b1)).
Proof.
  intros Hentry Hc Hfree Hcur Hall.
  assert (go b = (Raise BenderTrapped, b1)) as Hgo.
  { rewrite go_unfold, Hentry.
    unfold decide_and_move, on_forced_direction, bind, current_cell, ret, gets.
    rewrite Hc, (not_forced c Hfree). simpl.
    rewrite check_for_obstacle_spec, Hcur. simpl.
    unfold move_via_priorities, bind, gets. by apply move_via_trapped. }
  split; [done|]. split.
  { rewrite check_current_cell_eval in Hentry. unfold entry_result in Hentry.
    repeat case_match; simplify_eq; done. }
  split.
  { rewrite !elem_of_cons, elem_of_nil. intros [|[|[|[|[]]]]]; done. }
  intros fuel Hfin. simpl. by rewrite Hfin, Hgo.
Qed.

Lemma go_trapped_witness :
  go cage_start = (Raise BenderTrapped, cage_start) ∧
  drive 1 cage_start = Some (Raise BenderTrapped, cage_start).
Proof.
  assert (∀ d, "@"%char ∉ letters d) as Hfree.
  { intros d. destruct d; by_compute. }
  assert (Forall (λ d, blocked cage_start d = Ok true) (priorities cage_start))
    as Hall.
  { repeat (apply Forall_cons; split; [reflexivity|]). apply Forall_nil_2. }
  pose proof (go_trapped cage_start cage_start "@" eq_refl eq_refl Hfree
                eq_refl Hall) as H.
  exact (conj (proj1 H) (proj2 (proj2 (proj2 H)) O eq_refl)).
Defined.

End step.

(** ** Runs *)

Section runs.

Lemma entry_frame b r b1 :
  check_current_cell b = (r, b1) →
  teleport b1 = teleport b ∧ history b1 = history b ∧
  current_direction b1 = current_direction b.
Proof.
  rewrite check_current_cell_eval. unfold entry_result.
  repeat case_match; intros [= <- <-]; done.
Qed.

(** A step that returns has recorded exactly one move; a step that raises
    has recorded none. *)
Lemma go_inv b r b' :
  go b = (r, b') →
  ∃ r1 b1, check_current_cell b = (r1, b1) ∧
    ((r = Ok tt ∧ r1 = Ok tt ∧ ∃ d, b' = moved d b1) ∨
     (∃ ex, r = Raise ex ∧ b' = b1)).
Proof.
  rewrite go_unfold.
  destruct (check_current_cell b) as [[[]|ex] b1] eqn:Hentry.
  - intros [[-> [d ->]]|(ex & -> & ->)]%decide_and_move_inv;
      exists (Ok tt), b1; eauto 10.
  - intros [= <- <-]. exists (Raise ex), b1. eauto 10.
Qed.

Lemma go_history b b' :
  go b = (Ok tt, b') →
  ∃ d, history b' = history b ++ [DIRECTION_LONG_NAMES d].
Proof.
  intros (r1 & b1 & Hentry & [(_ & _ & d & ->)|(? & [=] & _)])%go_inv.
  apply entry_frame in Hentry as (_ & <- & _). by exists d.
Qed.

Lemma go_teleport b r b' : go b = (r, b') → teleport b' = teleport b.
Proof.
  intros (r1 & b1 & Hentry & [(_ & _ & d & ->)|(? & _ & ->)])%go_inv;
    by apply entry_frame in Hentry as (<- & _).
Qed.

Lemma steps_S k b bk :
  steps (S k) b = Some bk ↔ ∃ b', go b = (Ok tt, b') ∧ steps k b' = Some bk.
Proof.
  simpl. destruct (go b) as [[[]|ex] b']; split.
  - eauto.
  - by intros (? & [= <-] & ?).
  - done.
  - by intros (? & [=] & ?).
Qed.

Lemma steps_teleport k b bk : steps k b = Some bk → teleport bk = teleport b.
Proof.
  revert b. induction k as [|k IH]; intros b; [by intros [= <-]|].
  intros (b' & Hgo & Hk)%steps_S.
  rewrite (IH _ Hk). by eapply go_teleport.
Qed.

Lemma finished_eval b c :
  cell (rows b) (x b) (y b) = Ok c →
  finished b =
    (Ok (bool_decide (c = BOOTH_CHAR ∨ TIMEOUT < Z.of_nat (length (history b)))),
     b).
Proof.
  intros Hc. unfold finished, bind, current_cell, ret, gets. rewrite Hc.
  case_bool_decide as Hb.
  - by rewrite bool_decide_eq_true_2 by by left.
  - do 2 f_equal. apply bool_decide_ext. intuition.
Qed.

Lemma finished_state b r b' : finished b = (r, b') → b' = b.
Proof.
  unfold finished, bind, current_cell, ret, gets.
  repeat case_match; congruence.
Qed.

(** More fuel does not change the outcome of the driver loop. *)
Lemma drive_more fuel fuel' b res :
  (fuel ≤ fuel')%nat → drive fuel b = Some res → drive fuel' b = Some res.
Proof.
  revert fuel' b. induction fuel as [|fuel IH]; intros fuel' b Hle; [done|].
  destruct fuel' as [|fuel']; [lia|]. simpl.
  destruct (finished b) as [[[]|ex] b1]; [done| |done].
  destruct (go b1) as [[[]|ex] b2]; [|done]. apply IH. lia.
Qed.

(** The driver loop ends: each turn either stops or lengthens the history,
    and [finished] holds once the history is longer than the ceiling. *)
Lemma finished_false b :
  finished b = (Ok false, b) → Z.of_nat (length (history b)) ≤ TIMEOUT.
Proof.
  destruct (cell (rows b) (x b) (y b)) as [c|ex] eqn:Hc.
  - rewrite (finished_eval b c Hc). intros [= Hfin].
    apply bool_decide_eq_false in Hfin. lia.
  - unfold finished, bind, current_cell. by rewrite Hc.
Qed.

Lemma drive_terminates fuel b :
  (0 < fuel)%nat →
  TIMEOUT + 1 - Z.of_nat (length (history b)) < Z.of_nat fuel →
  is_Some (drive fuel b).
Proof.
  revert b. induction fuel as [|fuel IH]; intros b Hpos Hfuel; [lia|]. simpl.
  destruct (finished b) as [[[]|ex] b1] eqn:Hfin; [done| |done].
  apply finished_state in Hfin as Hb. subst b1.
  apply finished_false in Hfin.
  destruct (go b) as [[[]|ex] b2] eqn:Hgo; [|done].
  apply go_history in Hgo as [d Hd].
  apply IH; [lia|]. rewrite Hd, length_app. simpl. lia.
Qed.

(** When the loop ends normally off the goal, the history is one longer than
    the ceiling. *)
Lemma drive_ceiling fuel b bf :
  Z.of_nat (length (history b)) ≤ TIMEOUT + 1 →
  drive fuel b = Some (Ok tt, bf) →
  cell (rows bf) (x bf) (y bf) ≠ Ok BOOTH_CHAR →
  Z.of_nat (length (history bf)) = TIMEOUT + 1.
Proof.
  revert b. induction fuel as [|fuel IH]; intros b Hlen; [done|]. simpl.
  destruct (finished b) as [[[]|ex] b1] eqn:Hfin.
  - apply finished_state in Hfin as Hb. subst b1. intros [= <-] Hgoal.
    destruct (cell (rows b) (x b) (y b)) as [c|ex] eqn:Hc.
    + rewrite (finished_eval b c Hc) in Hfin.
      injection Hfin as Hfin. apply bool_decide_eq_true in Hfin.
      destruct Hfin as [->|Hlt]; [done | lia].
    + unfold finished, bind, current_cell in Hfin. by rewrite Hc in Hfin.
  - apply finished_state in Hfin as Hb. subst b1.
    destruct (go b) as [[[]|ex] b2] eqn:Hgo; [|done].
    apply IH. apply go_history in Hgo as [d ->].
    rewrite length_app. simpl.
    apply finished_false in Hfin. lia.
  - done.
Qed.

(** C4: [finished] is true exactly on the goal marker or when the history is
    longer than the ceiling of 8000; a driver loop started with an empty
    history always ends, and when it ends normally on a cell that is not the
    goal, the history has length 8001. *)
Theorem finished_at_ceiling b c :
  cell (rows b) (x b) (y b) = Ok c →
  finished b =
    (Ok (bool_decide (c = BOOTH_CHAR ∨ TIMEOUT < Z.of_nat (length (history b)))),
     b) ∧
  BOOTH_CHAR = "$"%char ∧ TIMEOUT = 8000 ∧
  (∀ b0, history b0 = [] → is_Some (drive (Z.to_nat (TIMEOUT + 2)) b0)) ∧
  (∀ fuel b0,
     history b0 = [] →
     drive fuel b0 = Some (Ok tt, b) →
     c ≠ BOOTH_CHAR →
     Z.of_nat (length (history b)) = 8001).
Proof.
  intros Hc. split; [by apply finished_eval|]. do 2 (split; [done|]). split.
  - intros b0 H0. apply drive_terminates; rewrite ?H0; unfold TIMEOUT; simpl; lia.
  - intros fuel b0 H0 Hrun Hgoal.
    apply (drive_ceiling fuel b0 b); [by rewrite H0| done |congruence].
Qed.

Lemma finished_at_ceiling_witness :
  Z.of_nat (length (history loop_end)) = 8001.
Proof.
  assert (cell (rows loop_end) (x loop_end) (y loop_end) = Ok " "%char) as Hc
    by reflexivity.
  assert (drive (Z.to_nat 8002) loop_start = Some (Ok tt, loop_end)) as Hrun
    by (vm_compute; reflexivity).
  assert (" "%char ≠ BOOTH_CHAR) as Hgoal by by_compute.
  exact (proj2 (proj2 (proj2 (proj2 (finished_at_ceiling loop_end " " Hc))))
           _ loop_start eq_refl Hrun Hgoal).
Defined.

(** C7: on the walled 5x5 board with the start at (1,1) and the goal at
    (3,3), construction succeeds, the driver loop ends on the goal, and the
    moves recorded (and reported) are south, south, east, east. *)
Theorem docstring_run :
  ∃ b bf,
    __init__ docstring_board = Ok b ∧
    (x b, y b) = (1, 1) ∧
    (∀ fuel, (5 ≤ fuel)%nat → drive fuel b = Some (Ok tt, bf)) ∧
    cell (rows bf) (x bf) (y bf) = Ok BOOTH_CHAR ∧
    (x bf, y bf) = (3, 3) ∧
    history bf = ["SOUTH"; "SOUTH"; "EAST"; "EAST"] ∧
    report bf = ["SOUTH"; "SOUTH"; "EAST"; "EAST"].
Proof.
  exists docstring_start. eexists.
  split; [reflexivity|]. split; [reflexivity|]. split.
  { intros fuel Hfuel. apply (drive_more 5); [done|]. vm_compute. reflexivity. }
  repeat split.
Qed.

End runs.

(** ** The inverter *)

Section inverter.

Lemma entry_priorities b r b1 :
  check_current_cell b = (r, b1) →
  priorities b1 =
    match cell (rows b) (x b) (y b) with
    | Ok c => if bool_decide (c = INVERTER_CHAR)
              then reverse (priorities b) else priorities b
    | Raise _ => priorities b
    end.
Proof.
  rewrite check_current_cell_eval. unfold entry_result.
  destruct (cell (rows b) (x b) (y b)) as [c|ex]; [|by intros [= <- <-]].
  unfold entry_effects, entry_partial.
  destruct (bool_decide (c = INVERTER_CHAR));
    repeat case_match; intros [= <- <-]; done.
Qed.

(** Whether it returns or raises, a step started on an inverter reverses the
    priority list, and any other step leaves it alone. *)
Lemma go_priorities b r b' :
  go b = (r, b') →
  priorities b' =
    match cell (rows b) (x b) (y b) with
    | Ok c => if bool_decide (c = INVERTER_CHAR)
              then reverse (priorities b) else priorities b
    | Raise _ => priorities b
    end.
Proof.
  intros (r1 & b1 & Hentry & [(_ & _ & d & ->)|(? & _ & ->)])%go_inv;
    by apply entry_priorities in Hentry.
Qed.

Lemma iter_reverse {A} (k : nat) (l : list A) :
  Nat.iter k reverse l = if Nat.even k then l else reverse l.
Proof.
  induction k as [|k IH]; [done|].
  rewrite Nat.even_succ, <-Nat.negb_even. simpl. rewrite IH.
  destruct (Nat.even k); simpl; [done | apply reverse_involutive].
Qed.

Lemma steps_priorities k b bk :
  steps k b = Some bk →
  priorities bk = Nat.iter (inverter_entries k b) reverse (priorities b).
Proof.
  revert b. induction k as [|k IH]; intros b; [by intros [= <-]|].
  intros (b' & Hgo & Hk)%steps_S. simpl. rewrite Hgo.
  rewrite (IH _ Hk), (go_priorities _ _ _ Hgo).
  destruct (cell (rows b) (x b) (y b)) as [c|ex]; [|done].
  case_bool_decide; [|done].
  change (1 + ?m)%nat with (S m). by rewrite Nat.iter_succ_r.
Qed.

(** C8: a step started on an inverter replaces the priority list with its
    reverse, reversing twice gives the list back, and after any number of
    steps from construction the list is the default one when the number of
    steps started on an inverter is even and its reverse when it is odd. *)
Theorem inverter_parity g b k bk :
  __init__ g = Ok b →
  steps k b = Some bk →
  (∀ r b', cell (rows bk) (x bk) (y bk) = Ok INVERTER_CHAR →
           go bk = (r, b') → priorities b' = reverse (priorities bk)) ∧
  reverse (reverse (priorities bk)) = priorities bk ∧
  priorities b = bender.priorities ∧
  priorities bk =
    (if Nat.even (inverter_entries k b) then bender.priorities
     else reverse bender.priorities).
Proof.
  intros Hinit Hk. split.
  { intros r b' Hc Hgo. by rewrite (go_priorities _ _ _ Hgo), Hc. }
  split; [apply reverse_involutive|].
  assert (priorities b = bender.priorities) as Hb.
  { unfold __init__ in Hinit. destruct (get_initial_cell g) as [[x0 y0]|]; [|done].
    by injection Hinit as <-. }
  split; [done|].
  by rewrite (steps_priorities _ _ _ Hk), iter_reverse, Hb.
Qed.

Lemma inverter_parity_witness :
  ∃ bk, steps 2 inverter_start = Some bk ∧
        inverter_entries 2 inverter_start = 1%nat ∧
        priorities bk = [w; n; e; s].
Proof.
  eexists. split; [vm_compute; reflexivity|]. split; [vm_compute; reflexivity|].
  exact (proj2 (proj2 (proj2 (inverter_parity inverter_board inverter_start 2 _
                                eq_refl eq_refl)))).
Defined.

End inverter.

(** ** Construction *)

Section construction.

Lemma length_row_positions (ch : ascii) (r : Z) (F : nat → Z) (row : list ascii) :
  length (imap (λ k a, (F k, a)) row ≫=
            λ '(col_index, col), if decide (col = ch) then [(r, col_index)] else []) =
  length (filter (.= ch) row).
Proof.
  revert F. unfold mbind. induction row as [|a row IH]; intros F; [done|].
  simpl. rewrite length_app, filter_cons. specialize (IH (λ k, F (S k))).
  simpl in IH. unfold compose. cbv beta. rewrite IH.
  by destruct (decide (a = ch)).
Qed.

Lemma length_board_positions (ch : ascii) (F : nat → Z) g :
  length (imap (λ k a, (F k, a)) g ≫=
            λ '(row_index, row),
              '(col_index, col) ← enumerate row;
              if decide (col = ch) then [(row_index, col_index)] else []) =
  length (filter (.= ch) (concat g)).
Proof.
  revert F. unfold mbind at 1. induction g as [|row g IH]; intros F; [done|].
  simpl. rewrite filter_app, !length_app. specialize (IH (λ k, F (S k))).
  simpl in IH. unfold compose. cbv beta. rewrite IH. f_equal.
  apply length_row_positions.
Qed.

Lemma length_positions ch g : length (positions ch g) = count_code ch g.
Proof. apply length_board_positions. Qed.

Lemma count_code_0 ch g : count_code ch g = 0%nat ↔ ch ∉ concat g.
Proof.
  unfold count_code. induction (concat g) as [|a l IH]; simpl.
  - split; [intros _ []%elem_of_nil | done].
  - rewrite filter_cons, not_elem_of_cons.
    destruct (decide (a = ch)) as [->|Hne]; simpl.
    + split; [done | by intros [[] _]].
    + rewrite IH. split; [by intros ?; split | by intros [_ ?]].
Qed.

Lemma get_initial_cell_None g :
  get_initial_cell g = None ↔ BENDER_CHAR ∉ concat g.
Proof.
  rewrite <-count_code_0, <-length_positions.
  change (get_initial_cell g) with (head (positions BENDER_CHAR g)).
  by destruct (positions BENDER_CHAR g).
Qed.

Lemma get_teleporters_None g :
  (count_code TELEPORT_CHAR g < 2)%nat → get_teleporters g = None.
Proof.
  rewrite <-length_positions.
  change (get_teleporters g) with
    (match positions TELEPORT_CHAR g !! 0%nat, positions TELEPORT_CHAR g !! 1%nat with
     | Some t0, Some t1 =>
         Some (<[t1:=t0]> (<[t0:=t1]> (∅ : gmap (Z * Z) (Z * Z))))
     | _, _ => None
     end).
  destruct (positions TELEPORT_CHAR g) as [|t0 [|t1 l]]; simpl; [done..|lia].
Qed.

Lemma init_Ok g b :
  __init__ g = Ok b →
  rows b = g ∧ get_initial_cell g = Some (x b, y b) ∧
  teleport b = get_teleporters g ∧ history b = [] ∧
  current_direction b = s ∧ priorities b = bender.priorities ∧
  in_beer_state b = false.
Proof.
  unfold __init__. destruct (get_initial_cell g) as [[x0 y0]|]; [|done].
  by intros [= <-].
Qed.

Lemma init_Raise g :
  BENDER_CHAR ∉ concat g → __init__ g = Raise TypeError.
Proof. intros H%get_initial_cell_None. unfold __init__. by rewrite H. Qed.

Lemma init_lone g :
  BENDER_CHAR ∈ concat g →
  count_code TELEPORT_CHAR g = 1%nat →
  ∃ b, __init__ g = Ok b ∧ teleport b = None.
Proof.
  intros Hstart Hone. unfold __init__.
  destruct (get_initial_cell g) as [[x0 y0]|] eqn:Hcell.
  - eexists. split; [done|]. simpl. apply get_teleporters_None. lia.
  - by apply get_initial_cell_None in Hcell.
Qed.

(** On a teleporter without an index the step stops at the teleport check,
    before anything has changed. *)
Lemma go_lone b :
  teleport b = None →
  cell (rows b) (x b) (y b) = Ok TELEPORT_CHAR →
  go b = (Raise TypeError, b).
Proof.
  intros Ht Hc. rewrite go_unfold, check_current_cell_eval.
  unfold entry_result. rewrite Hc, Ht. simpl.
  unfold entry_partial. simpl. by rewrite t_eta.
Qed.

(** C6, amended: construction raises at once (the [TypeError] of unpacking
    [None]) when the board has no start marker; with a start marker and
    exactly one teleporter marker it succeeds, and the teleport index is
    [None]. *)
Theorem construction_errors g :
  (BENDER_CHAR ∉ concat g → __init__ g = Raise TypeError) ∧
  (BENDER_CHAR ∈ concat g →
   count_code TELEPORT_CHAR g = 1%nat →
   ∃ b, __init__ g = Ok b ∧ rows b = g ∧ teleport b = None).
Proof.
  split; [apply init_Raise|]. intros Hstart Hone.
  destruct (init_lone g Hstart Hone) as (b & Hb & Ht).
  exists b. split; [done|]. split; [|done]. by apply init_Ok in Hb as [? _].
Qed.

Lemma construction_errors_witness :
  __init__ blank_board = Raise TypeError ∧
  ∃ b, __init__ lone_board = Ok b ∧ rows b = lone_board ∧ teleport b = None.
Proof.
  split.
  - apply (proj1 (construction_errors blank_board)). by_compute.
  - apply (proj2 (construction_errors lone_board)); [by_compute | reflexivity].
Defined.

(** The claim C6 as stated fails: a board with a start marker and exactly one
    teleporter marker is constructed without error. *)
Lemma construction_one_teleporter_succeeds :
  count_code TELEPORT_CHAR lone_board = 1%nat ∧
  __init__ lone_board = Ok lone_start ∧
  ¬ ∃ ex, __init__ lone_board = Raise ex.
Proof.
  split; [reflexivity|]. split; [reflexivity|]. by intros [ex [=]].
Qed.

(** C10: a board with a start marker and exactly one teleporter marker is
    constructed with the teleport index [None]; from then on, any step
    started on a teleporter cell raises the [TypeError] of subscripting
    [None], at the teleport check, and leaves the object as it was. *)
Theorem lone_teleporter_raises g :
  BENDER_CHAR ∈ concat g →
  count_code TELEPORT_CHAR g = 1%nat →
  ∃ b, __init__ g = Ok b ∧ teleport b = None ∧
       ∀ k bk, steps k b = Some bk →
               cell (rows bk) (x bk) (y bk) = Ok TELEPORT_CHAR →
               check_teleport bk = (Raise TypeError, bk) ∧
               go bk = (Raise TypeError, bk).
Proof.
  intros Hstart Hone. destruct (init_lone g Hstart Hone) as (b & Hb & Ht).
  exists b. split; [done|]. split; [done|]. intros k bk Hk Hc.
  apply steps_teleport in Hk. rewrite Ht in Hk. split; [|by apply go_lone].
  rewrite (check_teleport_spec bk _ Hc), Hk. by rewrite bool_decide_eq_true_2.
Qed.

Lemma lone_teleporter_raises_witness :
  go lone_walker = (Raise TypeError, lone_walker).
Proof.
  assert (BENDER_CHAR ∈ concat lone_board) as Hstart by by_compute.
  destruct (lone_teleporter_raises lone_board Hstart eq_refl)
    as (b & Hb & _ & Hgo).
  change (Ok lone_start = Ok b) in Hb. injection Hb as <-.
  exact (proj2 (Hgo 1%nat lone_walker eq_refl eq_refl)).
Defined.

End construction.

(** ** The board over a run *)

Section wear.

Lemma slot_ext g g' i j :
  length g' = length g →
  (∀ ri, length <$> g' !! ri = length <$> g !! ri) →
  slot g' i j = slot g i j.
Proof.
  intros Hlen Hrows. unfold slot.
  assert (index g' i = index g i) as -> by (unfold index; by rewrite Hlen).
  destruct (index g i) as [ri|]; [simpl|done]. specialize (Hrows ri).
  destruct (g' !! ri) as [row'|], (g !! ri) as [row|]; simpl in *; try done.
  injection Hrows as Hrows. unfold index. by rewrite Hrows.
Qed.

Global Instance worn_preorder : PreOrder worn.
Proof.
  split.
  - by intros g.
  - intros g1 g2 g3 (Hl & Hr & Hc) (Hl' & Hr' & Hc'). split; [congruence|].
    split; [intros ri; by rewrite Hr'|eauto].
Qed.

Lemma worn_cell g g' i j c :
  worn g g' → cell g i j = Ok c → c ≠ OBSTACLE_BREAKABLE → cell g' i j = Ok c.
Proof.
  intros (Hl & Hr & Hc) (ri & ci & Hs & Hp)%cell_Ok Hne.
  apply cell_Ok. exists ri, ci. rewrite (slot_ext g g') by done. eauto.
Qed.

(** Emptying a readable cell changes that slot and nothing else. *)
Lemma erase_spec g p c :
  cell g p.1 p.2 = Ok c →
  ∃ ri ci, slot g p.1 p.2 = Some (ri, ci) ∧
    phys g ri ci = Some c ∧
    phys (erase g p) ri ci = Some " "%char ∧
    (∀ ri' ci', (ri', ci') ≠ (ri, ci) →
                phys (erase g p) ri' ci' = phys g ri' ci') ∧
    length (erase g p) = length g ∧
    (∀ ri', length <$> erase g p !! ri' = length <$> g !! ri').
Proof.
  intros Hc.
  destruct (set_cell_Ok _ _ _ _ " "%char Hc)
    as (ri & ci & g' & Hs & Hset & Hnew & Hold & Hl & Hr).
  apply cell_Ok in Hc as (ri' & ci' & Hs' & Hp).
  rewrite Hs in Hs'. injection Hs' as <- <-.
  exists ri, ci. unfold erase. rewrite Hset. eauto 10.
Qed.

Lemma erase_worn g p :
  cell g p.1 p.2 = Ok OBSTACLE_BREAKABLE → worn g (erase g p).
Proof.
  intros (ri & ci & _ & Hp & _ & Hold & Hl & Hr)%erase_spec.
  split; [done|]. split; [done|]. intros ri' ci' c Hc Hne.
  rewrite Hold; [done|]. intros [= -> ->]. congruence.
Qed.

(** The board after the entry effects, whether they returned or raised. *)
Lemma entry_rows b r b1 :
  check_current_cell b = (r, b1) →
  rows b1 =
    match cell (rows b) (x b) (y b) with
    | Ok c =>
        match position_after_teleport b c with
        | Some p =>
            match cell (rows b) p.1 p.2 with
            | Ok c' =>
                if bool_decide (c' = OBSTACLE_BREAKABLE) && in_beer_state b
                then erase (rows b) p else rows b
            | Raise _ => rows b
            end
        | None => rows b
        end
    | Raise _ => rows b
    end.
Proof.
  rewrite check_current_cell_eval.
  unfold entry_result, position_after_teleport, paired.
  destruct (cell (rows b) (x b) (y b)) as [c|ex] eqn:Hc; [|by intros [= <- <-]].
  case_bool_decide as HT.
  - destruct (teleport b) as [t|]; simpl; [|by intros [= <- <-]].
    destruct (t !! (x b, y b)) as [p|]; [|by intros [= <- <-]].
    destruct (cell (rows b) p.1 p.2) as [c'|ex]; intros [= <- <-]; [|done].
    unfold entry_effects. simpl. by rewrite HT.
  - simpl. rewrite Hc. intros [= <- <-]. unfold entry_effects. simpl.
    case_bool_decide as HX; [|done].
    by rewrite bool_decide_eq_false_2 by by rewrite HX.
Qed.

Lemma go_rows b r b' :
  go b = (r, b') →
  ∃ r1 b1, check_current_cell b = (r1, b1) ∧ rows b' = rows b1.
Proof.
  intros (r1 & b1 & Hentry & [(_ & _ & d & ->)|(? & _ & ->)])%go_inv; eauto.
Qed.

Lemma go_worn b r b' : go b = (r, b') → worn (rows b) (rows b').
Proof.
  intros (r1 & b1 & Hentry & ->)%go_rows. rewrite (entry_rows _ _ _ Hentry).
  repeat case_match; try reflexivity.
  apply erase_worn. destruct (bool_decide _) eqn:HX; [|done].
  apply bool_decide_eq_true in HX. congruence.
Qed.

Lemma steps_worn k b bk : steps k b = Some bk → worn (rows b) (rows bk).
Proof.
  revert b. induction k as [|k IH]; intros b; [by intros [= <-]|].
  intros (b' & Hgo & Hk)%steps_S.
  etrans; [by eapply go_worn | by apply IH].
Qed.

End wear.

(** ** Teleporters stay where the index says *)

Section sound.

Lemma index_of_nat {A} (l : list A) (k : nat) :
  (k < length l)%nat → index l (Z.of_nat k) = Some k.
Proof.
  intros Hk. unfold index. cbv zeta.
  rewrite (bool_decide_eq_false_2 (Z.of_nat k < 0)) by lia.
  rewrite bool_decide_eq_true_2 by lia.
  by rewrite Nat2Z.id.
Qed.

Lemma positions_cell ch g i j : (i, j) ∈ positions ch g → cell g i j = Ok ch.
Proof.
  unfold positions, enumerate.
  intros ([i' row] & Hrow & (ri & row' & [= -> ->] & Hri)%elem_of_lookup_imap)
    %list_elem_of_bind.
  apply list_elem_of_bind in Hrow
    as ([j' col] & Hcol & (ci & col' & [= -> ->] & Hci)%elem_of_lookup_imap).
  destruct (decide (col' = ch)) as [->|]; [|by apply elem_of_nil in Hcol].
  apply list_elem_of_singleton in Hcol as [= -> ->].
  apply cell_Ok. exists ri, ci. unfold slot, phys.
  rewrite (index_of_nat g ri) by by eapply lookup_lt_Some. simpl.
  rewrite Hri. simpl.
  rewrite (index_of_nat row' ci) by by eapply lookup_lt_Some. done.
Qed.

Lemma get_teleporters_positions g t q p :
  get_teleporters g = Some t → t !! q = Some p →
  p ∈ positions TELEPORT_CHAR g.
Proof.
  change (get_teleporters g) with
    (match positions TELEPORT_CHAR g !! 0%nat, positions TELEPORT_CHAR g !! 1%nat with
     | Some t0, Some t1 =>
         Some (<[t1:=t0]> (<[t0:=t1]> (∅ : gmap (Z * Z) (Z * Z))))
     | _, _ => None
     end).
  destruct (positions TELEPORT_CHAR g !! 0%nat) as [t0|] eqn:H0; [|done].
  destruct (positions TELEPORT_CHAR g !! 1%nat) as [t1|] eqn:H1; [|done].
  intros [= <-].
  intros [[_ <-]|[_ [[_ <-]|[_ ?]]%lookup_insert_Some]]%lookup_insert_Some.
  - by eapply list_elem_of_lookup_2.
  - by eapply list_elem_of_lookup_2.
  - done.
Qed.

Lemma init_sound g b : __init__ g = Ok b → teleport_sound b.
Proof.
  intros (Hr & _ & Ht & _)%init_Ok t q [i j] Hb Hq. rewrite Hr. simpl.
  apply positions_cell. rewrite Ht in Hb. by eapply get_teleporters_positions.
Qed.

Lemma go_sound b r b' : teleport_sound b → go b = (r, b') → teleport_sound b'.
Proof.
  intros Hb Hgo t q p Ht Hq. rewrite (go_teleport _ _ _ Hgo) in Ht.
  eapply worn_cell; [by eapply go_worn | by eapply Hb | done].
Qed.

Lemma steps_sound k b bk :
  teleport_sound b → steps k b = Some bk → teleport_sound bk.
Proof.
  revert b. induction k as [|k IH]; intros b Hb; [by intros [= <-]|].
  intros (b' & Hgo & Hk)%steps_S. eauto using go_sound.
Qed.

(** With a sound index a step changes the board only by emptying the
    breakable obstacle the walker stands on, and only when the flag is set. *)
Lemma go_rows_sound b r b' :
  teleport_sound b →
  go b = (r, b') →
  rows b' =
    if on_breakable b && in_beer_state b
    then erase (rows b) (x b, y b) else rows b.
Proof.
  intros Hb (r1 & b1 & Hentry & ->)%go_rows.
  rewrite (entry_rows _ _ _ Hentry).
  unfold on_breakable, position_after_teleport, paired.
  destruct (cell (rows b) (x b) (y b)) as [c|ex] eqn:Hc; [|done].
  case_bool_decide as HT.
  - subst c. simpl. destruct (teleport b) as [t|] eqn:Ht; [simpl|done].
    destruct (t !! (x b, y b)) as [p|] eqn:Hp; [|done].
    by rewrite (Hb t _ p Ht Hp).
  - simpl. by rewrite Hc.
Qed.

(** C9: over a run from construction, a step changes the board only when it
    starts on a breakable obstacle with the flag set, and then only by
    emptying that one cell; a cell that is not a breakable obstacle, an
    emptied one in particular, keeps its code for the rest of the run; and
    an empty cell neither blocks nor triggers any entry effect. *)
Theorem breakable_destruction g b k bk r b' :
  __init__ g = Ok b →
  steps k b = Some bk →
  go bk = (r, b') →
  rows b' =
    (if on_breakable bk && in_beer_state bk
     then erase (rows bk) (x bk, y bk) else rows bk) ∧
  (on_breakable bk && in_beer_state bk = true →
   ∃ ri ci, slot (rows bk) (x bk) (y bk) = Some (ri, ci) ∧
     phys (rows bk) ri ci = Some OBSTACLE_BREAKABLE ∧
     phys (rows b') ri ci = Some " "%char ∧
     ∀ ri' ci', (ri', ci') ≠ (ri, ci) →
                phys (rows b') ri' ci' = phys (rows bk) ri' ci') ∧
  (∀ ri ci c k' b'',
     phys (rows b') ri ci = Some c → c ≠ OBSTACLE_BREAKABLE →
     steps k' b' = Some b'' → phys (rows b'') ri ci = Some c) ∧
  (∀ b0 d, neighbour b0 d = Ok " "%char →
           check_for_obstacle d b0 = (Ok false, b0)) ∧
  (∀ b0, cell (rows b0) (x b0) (y b0) = Ok " "%char →
         check_current_cell b0 = (Ok tt, b0) ∧
         on_forced_direction b0 = (Ok false, b0)).
Proof.
  intros Hinit Hk Hgo.
  assert (teleport_sound bk) as Hbk by eauto using init_sound, steps_sound.
  pose proof (go_rows_sound _ _ _ Hbk Hgo) as Hrows.
  split; [done|]. split; [|split; [|split]].
  - intros Hfire. rewrite Hfire in Hrows. rewrite Hrows.
    apply andb_true_iff in Hfire as [HX _]. unfold on_breakable in HX.
    destruct (cell (rows bk) (x bk) (y bk)) as [c|ex] eqn:Hc; [|done].
    apply bool_decide_eq_true in HX as ->.
    destruct (erase_spec (rows bk) (x bk, y bk) _ Hc)
      as (ri & ci & Hs & Hp & Hnew & Hold & _).
    exists ri, ci. eauto.
  - intros ri ci c k' b'' Hc Hne Hk'.
    by apply (steps_worn _ _ _ Hk') in Hc.
  - intros b0 d Hd. rewrite check_for_obstacle_spec. unfold blocked.
    rewrite Hd, bool_decide_eq_false_2; [done|]. by intros [|[]].
  - intros b0 Hc. split.
    + rewrite check_current_cell_eval. unfold entry_result. rewrite Hc.
      rewrite bool_decide_eq_false_2 by done.
      by rewrite entry_effects_id.
    + unfold on_forced_direction, bind, current_cell, ret. by rewrite Hc.
Qed.

Lemma breakable_destruction_witness :
  go beer_walker = (Ok tt, beer_after) ∧
  rows beer_after = erase (rows beer_walker) (3, 1) ∧
  phys (rows beer_walker) 3 1 = Some "X"%char ∧
  phys (rows beer_after) 3 1 = Some " "%char.
Proof.
  assert (go beer_walker = (Ok tt, beer_after)) as Hgo by reflexivity.
  split; [exact Hgo|].
  split; [|split; reflexivity].
  exact (proj1 (breakable_destruction beer_board beer_start 2 beer_walker
                  (Ok tt) beer_after eq_refl eq_refl Hgo)).
Defined.

End sound.

(** ** The entry effects, step by step *)

Section entry_order.

Lemma moved_off d b : (x (moved d b), y (moved d b)) ≠ (x b, y b).
Proof. destruct d; simpl; intros [= ? ?]; lia. Qed.

(** C2, amended: the entry effects are applied to the occupied cell [c] in
    the order beer, inverter, teleporter, and the breakable-obstacle check
    then looks at the cell [c'] of the position [p] the teleport check left
    the walker on: when [c'] is the breakable obstacle and the flag is set,
    the slot [p] denotes goes from 'X' to ' ' and every other slot and the
    shape of the board are kept; otherwise the board is kept.  The flag,
    the priority list and the position are functions of [c] alone, so the
    destination of a teleport has none of its own effects applied in this
    step.  The move is chosen on the object so obtained, and a step that
    returns has moved the walker one cell away from [p]: the destination's
    effects are applied only if a later step starts there. *)
Theorem go_entry_effects_order b c p c' :
  cell (rows b) (x b) (y b) = Ok c →
  position_after_teleport b c = Some p →
  cell (rows b) p.1 p.2 = Ok c' →
  let b1 := entry_effects b c p c' in
  check_current_cell b = (Ok tt, b1) ∧
  go b = decide_and_move b1 ∧
  in_beer_state b1 = xorb (bool_decide (c = BEER_CHAR)) (in_beer_state b) ∧
  priorities b1 =
    (if bool_decide (c = INVERTER_CHAR) then reverse (priorities b)
     else priorities b) ∧
  (x b1, y b1) = p ∧
  p = (if bool_decide (c = TELEPORT_CHAR) then default p (paired b)
       else (x b, y b)) ∧
  (bool_decide (c' = OBSTACLE_BREAKABLE) && in_beer_state b1 = true →
   ∃ ri ci, slot (rows b) p.1 p.2 = Some (ri, ci) ∧
     phys (rows b) ri ci = Some OBSTACLE_BREAKABLE ∧
     phys (rows b1) ri ci = Some " "%char ∧
     (∀ ri' ci', (ri', ci') ≠ (ri, ci) →
                 phys (rows b1) ri' ci' = phys (rows b) ri' ci') ∧
     length (rows b1) = length (rows b) ∧
     (∀ ri', length <$> rows b1 !! ri' = length <$> rows b !! ri')) ∧
  (bool_decide (c' = OBSTACLE_BREAKABLE) && in_beer_state b1 = false →
   rows b1 = rows b) ∧
  (c = TELEPORT_CHAR →
   in_beer_state b1 = in_beer_state b ∧ priorities b1 = priorities b) ∧
  (∀ r b', go b = (r, b') →
     (r = Ok tt ∧ ∃ d, b' = moved d b1 ∧
        (x b', y b') = (p.1 + dx (directions d), p.2 + dy (directions d)) ∧
        (x b', y b') ≠ p) ∨
     (∃ ex, r = Raise ex ∧ b' = b1)).
Proof.
  intros Hc Hp Hc' b1.
  assert (check_current_cell b = (Ok tt, b1)) as Hentry
    by by apply check_current_cell_spec.
  assert (go b = decide_and_move b1) as Hgo by by rewrite go_unfold, Hentry.
  assert ((x b1, y b1) = p) as Hpos by by destruct p.
  split; [done|]. split; [done|].
  split; [subst b1; simpl; by destruct (bool_decide _), (in_beer_state b)|].
  split; [done|]. split; [done|].
  split.
  { unfold position_after_teleport in Hp. case_bool_decide; [|congruence].
    by rewrite Hp. }
  split.
  { intros Hfire. apply andb_true_iff in Hfire as Hfire'.
    destruct Hfire' as [HX%bool_decide_eq_true _]. subst c'.
    destruct (erase_spec (rows b) p _ Hc')
      as (ri & ci & Hs & Hold & Hnew & Hrest & Hlen & Hrows).
    assert (rows b1 = erase (rows b) p) as ->.
    { subst b1. unfold entry_effects. simpl in *. by rewrite Hfire. }
    exists ri, ci. eauto 10. }
  split.
  { intros Hfire. subst b1. unfold entry_effects. simpl in *. by rewrite Hfire. }
  split; [intros ->; done|].
  intros r b' Hrun. rewrite Hgo in Hrun.
  apply decide_and_move_inv in Hrun as [[-> [d ->]]|(ex & -> & ->)];
    [left|right; eauto].
  split; [done|]. exists d. split; [done|].
  split; [by rewrite <-Hpos|].
  rewrite <-Hpos. apply moved_off.
Qed.

Lemma go_entry_effects_order_witness :
  (check_current_cell teleport_walker =
     (Ok tt, entry_effects teleport_walker "T" (1, 3) "T") ∧
   (x (entry_effects teleport_walker "T" (1, 3) "T"),
    y (entry_effects teleport_walker "T" (1, 3) "T")) = (1, 3) ∧
   rows (entry_effects teleport_walker "T" (1, 3) "T") = rows teleport_walker) ∧
  (∃ ri ci, slot (rows beer_walker) 3 1 = Some (ri, ci) ∧
     phys (rows beer_walker) ri ci = Some OBSTACLE_BREAKABLE ∧
     phys (rows (entry_effects beer_walker "X" (3, 1) "X")) ri ci =
       Some " "%char ∧
     (∀ ri' ci', (ri', ci') ≠ (ri, ci) →
        phys (rows (entry_effects beer_walker "X" (3, 1) "X")) ri' ci' =
        phys (rows beer_walker) ri' ci') ∧
     length (rows (entry_effects beer_walker "X" (3, 1) "X")) =
       length (rows beer_walker) ∧
     (∀ ri', length <$> rows (entry_effects beer_walker "X" (3, 1) "X") !! ri' =
             length <$> rows beer_walker !! ri')).
Proof.
  pose proof (go_entry_effects_order teleport_walker "T" (1, 3) "T"
                eq_refl eq_refl eq_refl) as H.
  pose proof (go_entry_effects_order beer_walker "X" (3, 1) "X"
                eq_refl eq_refl eq_refl) as H'.
  split.
  - exact (conj (proj1 H)
             (conj (proj1 (proj2 (proj2 (proj2 (proj2 H)))))
                   (proj1 (proj2 (proj2 (proj2 (proj2 (proj2 (proj2 (proj2 H)))))))
                      eq_refl))).
  - exact (proj1 (proj2 (proj2 (proj2 (proj2 (proj2 (proj2 H')))))) eq_refl).
Defined.

(** The claim C2 as stated fails in its last clause: the walker teleported
    from (2,1) to the teleporter at (1,3) is moved on to (2,3) by the same
    step, and the next step, started there, applies no entry effect: the
    teleport effect of the destination is not applied on the next step. *)
Lemma teleport_destination_not_next_step :
  paired teleport_walker = Some (1, 3) ∧
  cell (rows teleport_walker) 1 3 = Ok TELEPORT_CHAR ∧
  go teleport_walker = (Ok tt, teleport_landed) ∧
  (x teleport_landed, y teleport_landed) = (2, 3) ∧
  check_current_cell teleport_landed = (Ok tt, teleport_landed) ∧
  check_teleport teleport_landed = (Ok tt, teleport_landed) ∧
  go teleport_landed = (Ok tt, moved s teleport_landed).
Proof. repeat split. Qed.

End entry_order.

(** * Further properties of the code *)

(** ** The beer flag *)

Section flag.

Lemma entry_beer b r b1 :
  check_current_cell b = (r, b1) →
  in_beer_state b1 =
    match cell (rows b) (x b) (y b) with
    | Ok c => if bool_decide (c = BEER_CHAR)
              then negb (in_beer_state b) else in_beer_state b
    | Raise _ => in_beer_state b
    end.
Proof.
  rewrite check_current_cell_eval. unfold entry_result.
  destruct (cell (rows b) (x b) (y b)) as [c|ex]; [|by intros [= <- <-]].
  unfold entry_effects, entry_partial.
  destruct (bool_decide (c = BEER_CHAR));
    repeat case_match; intros [= <- <-]; done.
Qed.

Lemma go_beer b r b' :
  go b = (r, b') →
  in_beer_state b' =
    match cell (rows b) (x b) (y b) with
    | Ok c => if bool_decide (c = BEER_CHAR)
              then negb (in_beer_state b) else in_beer_state b
    | Raise _ => in_beer_state b
    end.
Proof.
  intros (r1 & b1 & Hentry & [(_ & _ & d & ->)|(? & _ & ->)])%go_inv;
    by apply entry_beer in Hentry.
Qed.

Lemma steps_beer k b bk :
  steps k b = Some bk →
  in_beer_state bk = xorb (Nat.odd (beer_entries k b)) (in_beer_state b).
Proof.
  revert b. induction k as [|k IH]; intros b; [by intros [= <-]|].
  intros (b' & Hgo & Hk)%steps_S. simpl. rewrite Hgo.
  rewrite (IH _ Hk), (go_beer _ _ _ Hgo).
  destruct (cell (rows b) (x b) (y b)) as [c|ex]; [|done].
  case_bool_decide; [|done].
  change (1 + ?m)%nat with (S m). rewrite Nat.odd_succ, <-Nat.negb_odd.
  by destruct (Nat.odd _), (in_beer_state b).
Qed.

(** The flag is toggled, not set: after any number of steps from
    construction it is set exactly when an odd number of those steps started
    on a beer, and the obstacle set follows it. *)
Theorem beer_parity g b k bk :
  __init__ g = Ok b →
  steps k b = Some bk →
  in_beer_state bk = Nat.odd (beer_entries k b) ∧
  obstacles bk =
    (if Nat.odd (beer_entries k b) then ["#"%char] else ["#"%char; "X"%char]).
Proof.
  intros (_ & _ & _ & _ & _ & _ & Hflag)%init_Ok Hk.
  assert (in_beer_state bk = Nat.odd (beer_entries k b)) as Hbk.
  { rewrite (steps_beer _ _ _ Hk), Hflag. apply xorb_false_r. }
  split; [done|]. unfold obstacles. by rewrite Hbk.
Qed.

Lemma beer_parity_witness :
  beer_entries 2 beer_start = 1%nat ∧ in_beer_state beer_walker = true.
Proof.
  split; [reflexivity|].
  exact (proj1 (beer_parity beer_board beer_start 2 beer_walker eq_refl eq_refl)).
Defined.

End flag.

(** ** The history *)

Section log.

Lemma go_moved b b' :
  go b = (Ok tt, b') →
  ∃ d, history b' = history b ++ [DIRECTION_LONG_NAMES d] ∧
       current_direction b' = d.
Proof.
  intros (r1 & b1 & Hentry & [(_ & _ & d & ->)|(? & [=] & _)])%go_inv.
  apply entry_frame in Hentry as (_ & <- & _). by exists d.
Qed.

Lemma steps_history k b bk :
  steps k b = Some bk →
  ∃ ds, length ds = k ∧
        history bk = history b ++ (DIRECTION_LONG_NAMES <$> ds) ∧
        (k ≠ 0%nat → last ds = Some (current_direction bk)).
Proof.
  revert b. induction k as [|k IH]; intros b.
  - intros [= <-]. exists []. by rewrite app_nil_r.
  - intros (b' & (d & Hd & Hcur)%go_moved & Hk)%steps_S.
    destruct (IH _ Hk) as (ds & Hlen & Hds & Hlast).
    exists (d :: ds). split; [by rewrite <-Hlen|]. split.
    + rewrite Hds, Hd, <-app_assoc. done.
    + intros _. destruct k as [|k].
      * destruct ds; [|done]. injection Hk as <-. by rewrite Hcur.
      * destruct ds as [|d' ds]; [done|]. by apply Hlast.
Qed.



End log.

(** ** The driver loop and the report *)

Section loop.

Lemma drive_steps fuel b bf :
  drive fuel b = Some (Ok tt, bf) →
  finished bf = (Ok true, bf) ∧ ∃ k, steps k b = Some bf.
Proof.
  revert b. induction fuel as [|fuel IH]; intros b; [done|]. simpl.
  destruct (finished b) as [[[]|ex] b1] eqn:Hfin; [| |done].
  - apply finished_state in Hfin as Hb. subst b1. intros [= <-].
    split; [done|]. by exists 0%nat.
  - apply finished_state in Hfin as Hb. subst b1.
    destruct (go b) as [[[]|ex] b2] eqn:Hgo; [|done].
    intros [Hbf [k Hk]]%IH. split; [done|]. exists (S k). simpl.
    by rewrite Hgo.
Qed.

Lemma drive_bound fuel b bf :
  Z.of_nat (length (history b)) ≤ TIMEOUT + 1 →
  drive fuel b = Some (Ok tt, bf) →
  Z.of_nat (length (history bf)) ≤ TIMEOUT + 1.
Proof.
  revert b. induction fuel as [|fuel IH]; intros b Hlen; [done|]. simpl.
  destruct (finished b) as [[[]|ex] b1] eqn:Hfin; [| |done].
  - apply finished_state in Hfin as Hb. subst b1. by intros [= <-].
  - apply finished_state in Hfin as Hb. subst b1.
    destruct (go b) as [[[]|ex] b2] eqn:Hgo; [|done].
    apply IH. apply go_history in Hgo as [d ->].
    rewrite length_app. simpl. apply finished_false in Hfin. lia.
Qed.

(** When the driver loop ends normally on an object constructed from a
    board, that object is [k] successful steps away, [k] being the length of
    its history and at most 8001; the walker is on the goal or [k] is 8001;
    and the script reports the history when [k] is below 8000 and the loop
    sentinel otherwise, also when the goal was reached with the 8000th or
    the 8001st move. *)
Theorem drive_exit fuel g b bf :
  __init__ g = Ok b →
  drive fuel b = Some (Ok tt, bf) →
  finished bf = (Ok true, bf) ∧
  ∃ k, steps k b = Some bf ∧
       length (history bf) = k ∧
       Z.of_nat k ≤ 8001 ∧
       (cell (rows bf) (x bf) (y bf) = Ok BOOTH_CHAR ∨ Z.of_nat k = 8001) ∧
       report bf =
         (if bool_decide (Z.of_nat k < 8000) then history bf else ["LOOP"]).
Proof.
  intros Hinit Hrun. apply init_Ok in Hinit as Hb.
  destruct Hb as (_ & _ & _ & Hh & _).
  destruct (drive_steps _ _ _ Hrun) as [Hfin [k Hk]]. split; [done|].
  exists k.
  assert (length (history bf) = k) as Hlen.
  { destruct (steps_history _ _ _ Hk) as (ds & Hds & Heq & _).
    rewrite Hh in Heq. simpl in Heq. by rewrite Heq, length_fmap. }
  split; [done|]. split; [done|].
  assert (Z.of_nat k ≤ 8001) as Hle.
  { rewrite <-Hlen. apply (drive_bound fuel b); [by rewrite Hh | done]. }
  split; [done|]. split.
  - destruct (cell (rows bf) (x bf) (y bf)) as [c|ex] eqn:Hc.
    + destruct (decide (c = BOOTH_CHAR)) as [->|Hne]; [by left|right].
      rewrite <-Hlen. apply (drive_ceiling fuel b); [by rewrite Hh|done|].
      congruence.
    + unfold finished, bind, current_cell in Hfin. by rewrite Hc in Hfin.
  - unfold report. rewrite Hlen. unfold TIMEOUT.
    repeat case_bool_decide; done || lia.
Qed.

Lemma drive_exit_witness :
  finished docstring_goal = (Ok true, docstring_goal) ∧
  ∃ k, steps k docstring_start = Some docstring_goal ∧
       length (history docstring_goal) = k ∧
       Z.of_nat k ≤ 8001 ∧
       (cell (rows docstring_goal) (x docstring_goal) (y docstring_goal) =
          Ok BOOTH_CHAR ∨ Z.of_nat k = 8001) ∧
       report docstring_goal =
         (if bool_decide (Z.of_nat k < 8000) then history docstring_goal
          else ["LOOP"]).
Proof.
  exact (drive_exit 5 docstring_board docstring_start docstring_goal
           eq_refl eq_refl).
Defined.

End loop.

(** ** What a step can raise, and where a free move lands *)

Section outcomes.

Lemma blocked_Raise b d ex :
  blocked b d = Raise ex → ex = IndexError ∧ neighbour b d = Raise IndexError.
Proof.
  unfold blocked. destruct (neighbour b d) as [c|ex'] eqn:Hn; [done|].
  intros [= <-]. apply cell_Raise in Hn as Hex. by subst ex'.
Qed.

Lemma move_via_cases ds b r b' :
  move_via ds b = (r, b') →
  (∃ d, d ∈ ds ∧ blocked b d = Ok false ∧ r = Ok tt ∧ b' = moved d b) ∨
  (r = Raise BenderTrapped ∧ b' = b ∧
   Forall (λ d, blocked b d = Ok true) ds) ∨
  (r = Raise IndexError ∧ b' = b ∧
   ∃ d, d ∈ ds ∧ neighbour b d = Raise IndexError).
Proof.
  induction ds as [|d ds IH]; simpl.
  - intros [= <- <-]. right. left. eauto.
  - unfold bind. rewrite check_for_obstacle_spec.
    destruct (blocked b d) as [[]|ex] eqn:Hd; simpl.
    + intros [(d' & ? & ? & -> & ->)|[(-> & -> & ?)|(-> & -> & d' & ? & ?)]]%IH.
      * left. exists d'. split; [by apply list_elem_of_further|done].
      * right. left. eauto.
      * right. right. split; [done|]. split; [done|]. exists d'.
        split; [by apply list_elem_of_further|done].
    + intros [= <- <-]. left. exists d.
      split; [apply list_elem_of_here|done].
    + intros [= <- <-]. apply blocked_Raise in Hd as [-> Hd].
      right. right. split; [done|]. split; [done|]. exists d.
      split; [apply list_elem_of_here|done].
Qed.

(** The decision in full: a forced move, a free move in an unblocked
    direction, or one of two exceptions with the object untouched. *)
Lemma decide_and_move_cases b r b' :
  decide_and_move b = (r, b') →
  (r = Raise IndexError ∧ b' = b ∧
   cell (rows b) (x b) (y b) = Raise IndexError) ∨
  ∃ c, cell (rows b) (x b) (y b) = Ok c ∧
    ((∃ d, c ∈ letters d ∧ r = Ok tt ∧ b' = moved d b) ∨
     ((∀ d, c ∉ letters d) ∧
      ((∃ d, blocked b d = Ok false ∧ r = Ok tt ∧ b' = moved d b) ∨
       (r = Raise BenderTrapped ∧ b' = b ∧
        Forall (λ d, blocked b d = Ok true)
               (current_direction b :: priorities b)) ∨
       (r = Raise IndexError ∧ b' = b ∧
        ∃ d, neighbour b d = Raise IndexError)))).
Proof.
  unfold decide_and_move, on_forced_direction, move_in_forced_direction,
    move_via_priorities, bind, current_cell, ret, gets, raise.
  destruct (cell _ _ _) as [c|ex] eqn:Hc.
  2:{ intros [= <- <-]. left. apply cell_Raise in Hc as Hex. by subst ex. }
  intros Hgo. right. exists c. split; [done|]. revert Hgo.
  case_bool_decide as Hf.
  - rewrite Hc. destruct (compass_of (lower c)) as [d|] eqn:Hd;
      [|by destruct Hf].
    rewrite move_spec. intros [= <- <-]. left. exists d.
    by apply forced_iff in Hd.
  - intros Hgo. right. split.
    { intros d Hd%forced_iff. apply Hf. by rewrite Hd. }
    revert Hgo. rewrite check_for_obstacle_spec.
    destruct (blocked b (current_direction b)) as [[]|ex] eqn:Hcur; simpl.
    + intros [(d & _ & ? & -> & ->)|[(-> & -> & ?)|(-> & -> & d & _ & ?)]]
        %move_via_cases.
      * left. eauto.
      * right. left. split; [done|]. split; [done|]. by apply Forall_cons.
      * right. right. eauto.
    + intros [= <- <-]. left. eauto.
    + intros [= <- <-]. apply blocked_Raise in Hcur as [-> Hcur].
      right. right. eauto.
Qed.

(** The ways the entry effects raise. *)
Lemma entry_raise b ex b1 :
  check_current_cell b = (Raise ex, b1) →
  (ex = IndexError ∧ b1 = b ∧ cell (rows b) (x b) (y b) = Raise IndexError) ∨
  (cell (rows b) (x b) (y b) = Ok TELEPORT_CHAR ∧
   ((ex = TypeError ∧ b1 = b ∧ teleport b = None) ∨
    (ex = KeyError ∧ b1 = b ∧
     ∃ t, teleport b = Some t ∧ t !! (x b, y b) = None) ∨
    (ex = IndexError ∧ rows b1 = rows b ∧ history b1 = history b ∧
     cell (rows b1) (x b1) (y b1) = Raise IndexError))).
Proof.
  rewrite check_current_cell_eval. unfold entry_result.
  destruct (cell (rows b) (x b) (y b)) as [c|ex'] eqn:Hc.
  2:{ intros [= <- <-]. left. apply cell_Raise in Hc as Hex. by subst ex'. }
  case_bool_decide as HT; [subst c|done].
  intros Hentry. right. split; [done|]. revert Hentry.
  assert (entry_partial b TELEPORT_CHAR (x b, y b) = b) as Hb.
  { unfold entry_partial. simpl. apply t_eta. }
  destruct (teleport b) as [t|] eqn:Ht.
  - destruct (t !! (x b, y b)) as [p|] eqn:Hp.
    + destruct (cell (rows b) p.1 p.2) as [c'|ex'] eqn:Hc'; [done|].
      intros [= <- <-]. apply cell_Raise in Hc' as Hex. subst ex'.
      right. right. by simpl.
    + rewrite Hb. intros [= <- <-]. right. left. eauto.
  - rewrite Hb. intros [= <- <-]. by left.
Qed.

(** What a raising step leaves behind, and why it raised. *)
Lemma go_raise_cases b ex b' :
  go b = (Raise ex, b') →
  history b' = history b ∧
  match ex with
  | TypeError =>
      cell (rows b) (x b) (y b) = Ok TELEPORT_CHAR ∧ teleport b = None ∧ b' = b
  | KeyError =>
      cell (rows b) (x b) (y b) = Ok TELEPORT_CHAR ∧ b' = b ∧
      ∃ t, teleport b = Some t ∧ t !! (x b, y b) = None
  | BenderTrapped =>
      (∃ c, cell (rows b') (x b') (y b') = Ok c ∧ ∀ d, c ∉ letters d) ∧
      Forall (λ d, blocked b' d = Ok true)
             (current_direction b' :: priorities b')
  | IndexError =>
      cell (rows b') (x b') (y b') = Raise IndexError ∨
      ∃ d, neighbour b' d = Raise IndexError
  | BenderObstacle => False
  end.
Proof.
  intros Hgo. split.
  { apply go_inv in Hgo as (r1 & b1 & Hentry & [([=] & _)|(? & _ & ->)]).
    by apply entry_frame in Hentry as (_ & -> & _). }
  rewrite go_unfold in Hgo.
  destruct (check_current_cell b) as [[[]|ex1] b1] eqn:Hentry.
  - apply decide_and_move_cases in Hgo
      as [([= ->] & -> & ?)|(c & Hc & [(d & _ & [=] & _)|(Hfree & Hcase)])];
      [by left|].
    destruct Hcase as [(d & _ & [=] & _)|[([= ->] & -> & ?)|([= ->] & -> & ?)]].
    + split; [eauto|done].
    + by right.
  - injection Hgo as <- <-.
    apply entry_raise in Hentry
      as [(-> & -> & ?)|(HT & [(-> & -> & ?)|[(-> & -> & ?)|(-> & _ & _ & ?)]])];
      eauto.
Qed.

(** A step that raises has recorded no move, and each exception has its
    cause: [TypeError] and [KeyError] come from the teleport check alone (no
    index, or no entry for the walker's coordinates) and leave the object
    untouched; [BenderTrapped] means that on a cell forcing no direction the
    current direction and all priorities are blocked; [IndexError] means the
    walker or a cell it looked at is off the board; [BenderObstacle] is
    never raised. *)
Theorem go_errors b ex b' :
  go b = (Raise ex, b') →
  history b' = history b ∧
  match ex with
  | TypeError =>
      cell (rows b) (x b) (y b) = Ok TELEPORT_CHAR ∧ teleport b = None ∧ b' = b
  | KeyError =>
      cell (rows b) (x b) (y b) = Ok TELEPORT_CHAR ∧ b' = b ∧
      ∃ t, teleport b = Some t ∧ t !! (x b, y b) = None
  | BenderTrapped =>
      (∃ c, cell (rows b') (x b') (y b') = Ok c ∧ ∀ d, c ∉ letters d) ∧
      Forall (λ d, blocked b' d = Ok true)
             (current_direction b' :: priorities b')
  | IndexError =>
      cell (rows b') (x b') (y b') = Raise IndexError ∨
      ∃ d, neighbour b' d = Raise IndexError
  | BenderObstacle => False
  end.
Proof. apply go_raise_cases. Qed.

Lemma go_errors_witness :
  Forall (λ d, blocked cage_start d = Ok true)
         (current_direction cage_start :: priorities cage_start).
Proof.
  exact (proj2 (proj2 (go_errors cage_start BenderTrapped cage_start eq_refl))).
Defined.

(** Unless a tile forces the move, a step that returns has put the walker
    on a cell of the board that is no obstacle to it: never on '#', and on
    'X' only with the flag set. *)
Theorem go_lands_free b b1 c b' :
  check_current_cell b = (Ok tt, b1) →
  cell (rows b1) (x b1) (y b1) = Ok c →
  (∀ d, c ∉ letters d) →
  go b = (Ok tt, b') →
  ∃ d c', b' = moved d b1 ∧
          neighbour b1 d = Ok c' ∧
          cell (rows b') (x b') (y b') = Ok c' ∧
          c' ≠ OBSTACLE_UNBREAKABLE ∧
          (c' = OBSTACLE_BREAKABLE → in_beer_state b' = true).
Proof.
  intros Hentry Hc Hfree Hgo. rewrite go_unfold, Hentry in Hgo.
  apply decide_and_move_cases in Hgo
    as [([=] & _)|(c0 & Hc0 & [(d & Hd & _)|(_ & Hcase)])].
  { rewrite Hc in Hc0. injection Hc0 as <-. by destruct (Hfree d). }
  destruct Hcase as [(d & Hd & _ & ->)|[([=] & _)|([=] & _)]].
  unfold blocked in Hd. destruct (neighbour b1 d) as [c'|] eqn:Hn; [|done].
  injection Hd as Hd. apply bool_decide_eq_false in Hd.
  exists d, c'. split; [done|]. split; [done|]. split; [exact Hn|].
  split; [tauto|]. simpl. intros ->. destruct (in_beer_state b1); tauto.
Qed.

Lemma go_lands_free_witness :
  ∃ d c', moved e docstring_corner = moved d docstring_corner ∧
          neighbour docstring_corner d = Ok c' ∧
          cell (rows (moved e docstring_corner)) (x (moved e docstring_corner))
               (y (moved e docstring_corner)) = Ok c' ∧
          c' ≠ OBSTACLE_UNBREAKABLE ∧
          (c' = OBSTACLE_BREAKABLE →
           in_beer_state (moved e docstring_corner) = true).
Proof.
  assert (∀ d, " "%char ∉ letters d) as Hfree.
  { intros d. destruct d; by_compute. }
  exact (go_lands_free docstring_corner docstring_corner " "
           (moved e docstring_corner) eq_refl eq_refl Hfree eq_refl).
Defined.

End outcomes.

(** ** The teleport index *)

Section index.

Lemma elem_of_enumerate {A} (l : list A) (q : Z * A) :
  q ∈ enumerate l ↔ ∃ k, q = (Z.of_nat k, q.2) ∧ l !! k = Some q.2.
Proof.
  unfold enumerate. rewrite elem_of_lookup_imap. split.
  - intros (k & a & -> & Hk). eauto.
  - intros (k & Hq & Hk). exists k, q.2. eauto.
Qed.

Lemma NoDup_enumerate {A} (l : list A) : NoDup (enumerate l).
Proof.
  apply NoDup_alt. intros k1 k2 q. unfold enumerate.
  rewrite !list_lookup_imap.
  destruct (l !! k1), (l !! k2); simpl; try done.
  intros [= <-] [= ?%(inj Z.of_nat) _]. done.
Qed.

(** The coordinates listed for a code are those of the slots holding it. *)
Lemma elem_of_positions ch g p :
  p ∈ positions ch g ↔
  ∃ ri ci, p = (Z.of_nat ri, Z.of_nat ci) ∧ phys g ri ci = Some ch.
Proof.
  unfold positions, phys. rewrite list_elem_of_bind. split.
  - intros ([i row] & Hrow & (ri & [= ->] & Hri)%elem_of_enumerate).
    simpl in Hri. apply list_elem_of_bind in Hrow
      as ([j col] & Hcol & (ci & [= ->] & Hci)%elem_of_enumerate).
    simpl in Hci. destruct (decide (col = ch)) as [->|];
      [|by apply elem_of_nil in Hcol].
    apply list_elem_of_singleton in Hcol as ->.
    exists ri, ci. split; [done|]. by rewrite Hri.
  - intros (ri & ci & -> & Hp).
    destruct (g !! ri) as [row|] eqn:Hri; [simpl in Hp|done].
    exists (Z.of_nat ri, row). split; [|apply elem_of_enumerate; eauto].
    apply list_elem_of_bind. exists (Z.of_nat ci, ch).
    split; [|apply elem_of_enumerate; eauto].
    rewrite decide_True by done. apply list_elem_of_here.
Qed.

Lemma NoDup_positions ch g : NoDup (positions ch g).
Proof.
  unfold positions. apply NoDup_bind; [| |apply NoDup_enumerate].
  - intros [i1 row1] [i2 row2] p (k1 & [= ->] & Hk1)%elem_of_enumerate
      (k2 & [= ->] & Hk2)%elem_of_enumerate.
    simpl in *.
    intros ([j1 c1] & H1 & _)%list_elem_of_bind ([j2 c2] & H2 & _)%list_elem_of_bind.
    destruct (decide (c1 = ch)); [|by apply elem_of_nil in H1].
    destruct (decide (c2 = ch)); [|by apply elem_of_nil in H2].
    apply list_elem_of_singleton in H1 as ->.
    apply list_elem_of_singleton in H2 as [= ?%(inj Z.of_nat) _].
    subst k2. congruence.
  - intros [i row] _. apply NoDup_bind; [| |apply NoDup_enumerate].
    + intros [j1 c1] [j2 c2] p (k1 & [= ->] & Hk1)%elem_of_enumerate
        (k2 & [= ->] & Hk2)%elem_of_enumerate.
      simpl in *.
      destruct (decide (c1 = ch)); [|by intros ?%elem_of_nil].
      destruct (decide (c2 = ch)); [|by intros _ ?%elem_of_nil].
      intros ->%list_elem_of_singleton [= ?%(inj Z.of_nat)]%list_elem_of_singleton.
      subst k2. congruence.
    + intros [j c] _. destruct (decide (c = ch));
        [apply NoDup_singleton | apply NoDup_nil_2].
Qed.

Lemma get_teleporters_pair g t0 t1 rest :
  positions TELEPORT_CHAR g = t0 :: t1 :: rest →
  t0 ≠ t1 ∧
  get_teleporters g = Some (<[t1:=t0]> (<[t0:=t1]> ∅)).
Proof.
  intros Hpos. split.
  - pose proof (NoDup_positions TELEPORT_CHAR g) as Hnd. rewrite Hpos in Hnd.
    apply NoDup_cons in Hnd as [Hnd _]. intros ->. apply Hnd, list_elem_of_here.
  - change (get_teleporters g) with
      (match positions TELEPORT_CHAR g !! 0%nat, positions TELEPORT_CHAR g !! 1%nat with
       | Some t0, Some t1 =>
           Some (<[t1:=t0]> (<[t0:=t1]> (∅ : gmap (Z * Z) (Z * Z))))
       | _, _ => None
       end).
    by rewrite Hpos.
Qed.

Lemma check_teleport_paired b p :
  cell (rows b) (x b) (y b) = Ok TELEPORT_CHAR →
  paired b = Some p →
  check_teleport b = (Ok tt, set_y p.2 (set_x p.1 b)).
Proof.
  intros Hc Hp. rewrite (check_teleport_spec b _ Hc).
  rewrite bool_decide_eq_true_2 by done. unfold paired in Hp.
  destruct (teleport b) as [t|]; [simpl in Hp|done]. by rewrite Hp.
Qed.

Lemma steps_cell k b bk i j c :
  steps k b = Some bk → cell (rows b) i j = Ok c → c ≠ OBSTACLE_BREAKABLE →
  cell (rows bk) i j = Ok c.
Proof. intros Hk. apply worn_cell. by eapply steps_worn. Qed.

(** The teleport index of a board with at least two teleporter markers,
    and the teleport check over a run, by the walker's coordinates. *)
Lemma teleport_index g b t0 t1 rest :
  __init__ g = Ok b →
  positions TELEPORT_CHAR g = t0 :: t1 :: rest →
  t0 ≠ t1 ∧
  ∃ t, teleport b = Some t ∧
    t !! t0 = Some t1 ∧ t !! t1 = Some t0 ∧
    (∀ q, is_Some (t !! q) → q = t0 ∨ q = t1) ∧
    ∀ k bk, steps k b = Some bk →
      teleport bk = Some t ∧
      ((x bk, y bk) = t0 →
       check_teleport bk = (Ok tt, set_y t1.2 (set_x t1.1 bk))) ∧
      ((x bk, y bk) = t1 →
       check_teleport bk = (Ok tt, set_y t0.2 (set_x t0.1 bk))) ∧
      (cell (rows bk) (x bk) (y bk) = Ok TELEPORT_CHAR →
       (x bk, y bk) ≠ t0 → (x bk, y bk) ≠ t1 →
       check_teleport bk = (Raise KeyError, bk)).
Proof.
  intros Hinit Hpos. apply init_Ok in Hinit as (Hr & _ & Ht & _).
  destruct (get_teleporters_pair g t0 t1 rest Hpos) as [Hne Hget].
  split; [done|]. eexists. split; [by rewrite Ht, Hget|].
  assert (∀ p, p ∈ t0 :: t1 :: rest → cell g p.1 p.2 = Ok TELEPORT_CHAR)
    as Hcell.
  { intros [i j] Hp. apply positions_cell. by rewrite Hpos. }
  split; [by rewrite lookup_insert_ne, lookup_insert_eq|].
  split; [by rewrite lookup_insert_eq|].
  assert (∀ q, is_Some ((<[t1:=t0]> (<[t0:=t1]> (∅ : gmap (Z * Z) (Z * Z)))) !! q) →
               q = t0 ∨ q = t1) as Hdom.
  { intros q [p Hq]. apply lookup_insert_Some in Hq as [[<- _]|[_ Hq]];
      [by right|].
    apply lookup_insert_Some in Hq as [[<- _]|[_ Hq]]; [by left|done]. }
  split; [done|].
  intros k bk Hk. pose proof (steps_teleport _ _ _ Hk) as Hbk.
  rewrite Ht, Hget in Hbk. split; [done|].
  split; [|split].
  - intros Hat. apply check_teleport_paired.
    + apply (steps_cell _ _ _ _ _ _ Hk); [|done]. rewrite Hr.
      replace (x bk) with t0.1 by by rewrite <-Hat.
      replace (y bk) with t0.2 by by rewrite <-Hat.
      apply Hcell, list_elem_of_here.
    + unfold paired. rewrite Hbk, Hat. simpl.
      by rewrite lookup_insert_ne, lookup_insert_eq.
  - intros Hat. apply check_teleport_paired.
    + apply (steps_cell _ _ _ _ _ _ Hk); [|done]. rewrite Hr.
      replace (x bk) with t1.1 by by rewrite <-Hat.
      replace (y bk) with t1.2 by by rewrite <-Hat.
      apply Hcell, list_elem_of_further, list_elem_of_here.
    + unfold paired. rewrite Hbk, Hat. simpl. by rewrite lookup_insert_eq.
  - intros Hc H0 H1. rewrite (check_teleport_spec bk _ Hc), Hbk.
    rewrite bool_decide_eq_true_2 by done.
    destruct (_ !! (x bk, y bk)) as [p|] eqn:Hq; [|done].
    destruct (Hdom (x bk, y bk)) as [?|?]; [by eexists|done..].
Qed.

(** The teleport index is keyed by the coordinates found at construction.
    With at least two teleporter markers, the first two in row-major order
    are distinct, the index maps each to the other, holds nothing else and
    stays the index for the whole run.  At any later step the teleport check
    moves a walker whose coordinates are those of one of the two to the
    coordinates of the other; on a teleporter cell under any other
    coordinates, negative ones that denote one of the two indexed cells
    included, it raises [KeyError] and leaves the object untouched. *)
Theorem teleport_pair g b t0 t1 rest :
  __init__ g = Ok b →
  positions TELEPORT_CHAR g = t0 :: t1 :: rest →
  t0 ≠ t1 ∧
  ∃ t, teleport b = Some t ∧
    t !! t0 = Some t1 ∧ t !! t1 = Some t0 ∧
    (∀ q, is_Some (t !! q) → q = t0 ∨ q = t1) ∧
    ∀ k bk, steps k b = Some bk →
      teleport bk = Some t ∧
      ((x bk, y bk) = t0 →
       check_teleport bk = (Ok tt, set_y t1.2 (set_x t1.1 bk))) ∧
      ((x bk, y bk) = t1 →
       check_teleport bk = (Ok tt, set_y t0.2 (set_x t0.1 bk))) ∧
      (cell (rows bk) (x bk) (y bk) = Ok TELEPORT_CHAR →
       (x bk, y bk) ≠ t0 → (x bk, y bk) ≠ t1 →
       check_teleport bk = (Raise KeyError, bk)).
Proof. apply teleport_index. Qed.

Lemma teleport_pair_witness :
  check_teleport teleport_walker =
    (Ok tt, set_y 3 (set_x 1 teleport_walker)) ∧
  slot (rows wrap_walker) (x wrap_walker) (y wrap_walker) = Some (3%nat, 1%nat) ∧
  check_teleport wrap_walker = (Raise KeyError, wrap_walker).
Proof.
  destruct (teleport_pair teleport_board teleport_start (1, 3) (2, 1) []
              eq_refl eq_refl) as (_ & t & _ & _ & _ & _ & Hrun).
  destruct (teleport_pair wrap_board wrap_start (3, 1) (3, 2) []
              eq_refl eq_refl) as (_ & t' & _ & _ & _ & _ & Hrun').
  assert ((-1, 1) ≠ (3, 1)) as H0 by by_compute.
  assert ((-1, 1) ≠ (3, 2)) as H1 by by_compute.
  split; [|split; [reflexivity|]].
  - exact (proj1 (proj2 (proj2 (Hrun 1%nat teleport_walker eq_refl))) eq_refl).
  - exact (proj2 (proj2 (proj2 (Hrun' 2%nat wrap_walker eq_refl)))
             eq_refl H0 H1).
Defined.

Lemma go_missing_key b t :
  teleport b = Some t →
  t !! (x b, y b) = None →
  cell (rows b) (x b) (y b) = Ok TELEPORT_CHAR →
  go b = (Raise KeyError, b).
Proof.
  intros Ht Hq Hc. rewrite go_unfold, check_current_cell_eval.
  unfold entry_result. rewrite Hc, Ht, Hq. simpl.
  unfold entry_partial. simpl. by rewrite t_eta.
Qed.

(** Only the first two teleporter markers are indexed: at any step of a run
    from construction, a walker on a teleporter cell at coordinates other
    than those two makes [go] raise [KeyError], with the object left
    untouched. *)
Theorem extra_teleporter_raises g b t0 t1 rest k bk :
  __init__ g = Ok b →
  positions TELEPORT_CHAR g = t0 :: t1 :: rest →
  steps k b = Some bk →
  cell (rows bk) (x bk) (y bk) = Ok TELEPORT_CHAR →
  (x bk, y bk) ≠ t0 →
  (x bk, y bk) ≠ t1 →
  go bk = (Raise KeyError, bk).
Proof.
  intros Hinit Hpos Hk Hc H0 H1.
  destruct (teleport_index g b t0 t1 rest Hinit Hpos)
    as (_ & t & _ & _ & _ & Hdom & Hrun).
  destruct (Hrun k bk Hk) as [Ht _].
  apply (go_missing_key bk t); [done| |done].
  destruct (t !! (x bk, y bk)) as [p|] eqn:Hq; [|done].
  destruct (Hdom (x bk, y bk)) as [?|?]; [by eexists|done..].
Qed.

Lemma extra_teleporter_raises_witness :
  go crowded_walker = (Raise KeyError, crowded_walker).
Proof.
  assert ((3, 1) ≠ (1, 1)) as H0 by by_compute.
  assert ((3, 1) ≠ (1, 3)) as H1 by by_compute.
  exact (extra_teleporter_raises crowded_board crowded_start (1, 1) (1, 3)
           [(3, 1)] 1 crowded_walker eq_refl eq_refl eq_refl eq_refl H0 H1).
Defined.

End index.

(** ** The board never grows, shrinks or gains a code *)

Section thin.

Lemma go_thin b r b' ri ci :
  go b = (r, b') →
  phys (rows b') ri ci = phys (rows b) ri ci ∨
  (phys (rows b) ri ci = Some OBSTACLE_BREAKABLE ∧
   phys (rows b') ri ci = Some " "%char).
Proof.
  intros (r1 & b1 & Hentry & ->)%go_rows. rewrite (entry_rows _ _ _ Hentry).
  repeat case_match; try by left.
  destruct (bool_decide _) eqn:HX; [|done].
  apply bool_decide_eq_true in HX. subst.
  match goal with H : cell _ ?p.1 ?p.2 = Ok _ |- _ =>
    destruct (erase_spec _ p _ H) as (ri0 & ci0 & _ & Hp & Hnew & Hold & _)
  end.
  destruct (decide ((ri, ci) = (ri0, ci0))) as [[= -> ->]|Hne].
  - by right.
  - left. by apply Hold.
Qed.

Lemma steps_thin k b bk ri ci :
  steps k b = Some bk →
  phys (rows bk) ri ci = phys (rows b) ri ci ∨
  (phys (rows b) ri ci = Some OBSTACLE_BREAKABLE ∧
   phys (rows bk) ri ci = Some " "%char).
Proof.
  revert b. induction k as [|k IH]; intros b; [intros [= <-]; by left|].
  intros (b' & Hgo & Hk)%steps_S.
  destruct (go_thin _ _ _ ri ci Hgo) as [H1|[H1 H1']],
    (IH _ Hk) as [H2|[H2 H2']].
  - left. congruence.
  - right. split; congruence.
  - right. split; congruence.
  - rewrite H1' in H2. discriminate H2.
Qed.

(** Over any number of steps the teleport index and the shape of the board
    stay what they were, Python coordinates keep denoting the same slots,
    and a slot either keeps its code or has gone from the breakable
    obstacle to empty: no other code ever appears or disappears. *)
Theorem board_only_loses_obstacles k b bk :
  steps k b = Some bk →
  teleport bk = teleport b ∧
  length (rows bk) = length (rows b) ∧
  (∀ ri, length <$> rows bk !! ri = length <$> rows b !! ri) ∧
  (∀ i j, slot (rows bk) i j = slot (rows b) i j) ∧
  (∀ ri ci,
     phys (rows bk) ri ci = phys (rows b) ri ci ∨
     (phys (rows b) ri ci = Some OBSTACLE_BREAKABLE ∧
      phys (rows bk) ri ci = Some " "%char)).
Proof.
  intros Hk. destruct (steps_worn _ _ _ Hk) as (Hl & Hr & _).
  split; [by eapply steps_teleport|]. split; [done|]. split; [done|].
  split; [intros i j; by apply slot_ext|]. intros ri ci. by eapply steps_thin.
Qed.

Lemma board_only_loses_obstacles_witness :
  phys (rows beer_after) 3 1 = phys (rows beer_start) 3 1 ∨
  (phys (rows beer_start) 3 1 = Some OBSTACLE_BREAKABLE ∧
   phys (rows beer_after) 3 1 = Some " "%char).
Proof.
  exact (proj2 (proj2 (proj2 (proj2
           (board_only_loses_obstacles 3 beer_start beer_after eq_refl))))
           3%nat 1%nat).
Defined.

End thin.

(** ** Where the walker starts *)

Section start.

Lemma row_first ch (r : Z) (F : nat → Z) (row : list ascii) :
  match head (imap (λ k a, (F k, a)) row ≫=
                λ '(col_index, col),
                  if decide (col = ch) then [(r, col_index)] else []) with
  | Some p =>
      ∃ ci, p = (r, F ci) ∧ row !! ci = Some ch ∧
            ∀ ci', (ci' < ci)%nat → row !! ci' ≠ Some ch
  | None => ∀ ci, row !! ci ≠ Some ch
  end.
Proof.
  revert F. unfold mbind. induction row as [|a row IH]; intros F; simpl.
  - by intros ci.
  - specialize (IH (λ k, F (S k))). simpl in IH.
    unfold compose. cbv beta.
    destruct (decide (a = ch)) as [->|Hne]; simpl.
    + exists 0%nat. split; [done|]. split; [done|]. lia.
    + destruct (head _) as [p|].
      * destruct IH as (ci & -> & Hci & Hfirst). exists (S ci).
        split; [done|]. split; [done|]. intros [|ci'] Hlt; simpl.
        -- congruence.
        -- apply Hfirst. lia.
      * intros [|ci]; simpl; [congruence | apply IH].
Qed.

Lemma board_first ch (F : nat → Z) g :
  match head (imap (λ k a, (F k, a)) g ≫=
                λ '(row_index, row),
                  '(col_index, col) ← enumerate row;
                  if decide (col = ch) then [(row_index, col_index)] else []) with
  | Some p =>
      ∃ ri ci, p = (F ri, Z.of_nat ci) ∧ phys g ri ci = Some ch ∧
        ∀ ri' ci', phys g ri' ci' = Some ch →
                   (ri < ri' ∨ (ri = ri' ∧ ci ≤ ci'))%nat
  | None => ∀ ri ci, phys g ri ci ≠ Some ch
  end.
Proof.
  revert F. unfold mbind at 1. induction g as [|row g IH]; intros F; simpl.
  - by intros ri ci.
  - specialize (IH (λ k, F (S k))). simpl in IH.
    unfold compose. cbv beta.
    pose proof (row_first ch (F 0%nat) Z.of_nat row) as Hrow.
    unfold enumerate at 1.
    destruct (imap _ row ≫= _) as [|p l] eqn:Hl; simpl in *.
    + destruct (head _) as [p|].
      * destruct IH as (ri & ci & -> & Hp & Hfirst). exists (S ri), ci.
        split; [done|]. split; [done|]. intros [|ri'] ci' Hp'.
        -- by destruct (Hrow ci').
        -- destruct (Hfirst ri' ci' Hp'); lia.
      * intros [|ri] ci; [apply Hrow | apply IH].
    + destruct Hrow as (ci & -> & Hci & Hfirst). exists 0%nat, ci.
      split; [done|]. split; [done|]. intros [|ri'] ci' Hp'; [|lia].
      right. split; [done|].
      destruct (decide (ci ≤ ci')%nat); [done|].
      destruct (Hfirst ci'); [lia | done].
Qed.

Lemma cell_of_nat g ri ci c :
  phys g ri ci = Some c → cell g (Z.of_nat ri) (Z.of_nat ci) = Ok c.
Proof.
  intros Hp. apply cell_Ok. exists ri, ci. split; [|done].
  unfold phys in Hp. unfold slot.
  destruct (g !! ri) as [row|] eqn:Hri; [simpl in Hp|done].
  rewrite (index_of_nat g ri) by by eapply lookup_lt_Some. simpl.
  rewrite Hri. simpl.
  by rewrite (index_of_nat row ci) by by eapply lookup_lt_Some.
Qed.

(** The start found by the double loop of [get_initial_cell]. *)
Lemma construction_first g b :
  __init__ g = Ok b →
  ∃ ri ci,
    (x b, y b) = (Z.of_nat ri, Z.of_nat ci) ∧
    phys g ri ci = Some BENDER_CHAR ∧
    (∀ ri' ci', phys g ri' ci' = Some BENDER_CHAR →
                (ri < ri' ∨ (ri = ri' ∧ ci ≤ ci'))%nat) ∧
    cell (rows b) (x b) (y b) = Ok BENDER_CHAR ∧
    check_current_cell b = (Ok tt, b) ∧
    finished b = (Ok false, b).
Proof.
  intros (Hr & Hstart & _ & Hh & _)%init_Ok.
  pose proof (board_first BENDER_CHAR Z.of_nat g) as Hfirst.
  change (get_initial_cell g) with
    (head (imap (λ k a, (Z.of_nat k, a)) g ≫=
             λ '(row_index, row),
               '(col_index, col) ← enumerate row;
               if decide (col = BENDER_CHAR)
               then [(row_index, col_index)] else [])) in Hstart.
  rewrite Hstart in Hfirst. destruct Hfirst as (ri & ci & Hxy & Hp & Hmin).
  exists ri, ci. split; [done|]. split; [done|]. split; [done|].
  injection Hxy as Hx Hy.
  assert (cell (rows b) (x b) (y b) = Ok BENDER_CHAR) as Hc.
  { rewrite Hr, Hx, Hy. by apply cell_of_nat. }
  split; [done|]. split.
  - rewrite check_current_cell_eval. unfold entry_result. rewrite Hc.
    rewrite bool_decide_eq_false_2 by done. by rewrite entry_effects_id.
  - rewrite (finished_eval b _ Hc), Hh. by rewrite bool_decide_eq_false_2
      by (unfold TIMEOUT; simpl; intros [|]; [done | lia]).
Qed.

(** Construction puts the walker on the first start marker in row-major
    order, at non-negative coordinates; that cell triggers no entry effect,
    and the new object is not finished. *)
Theorem construction_start g b :
  __init__ g = Ok b →
  ∃ ri ci,
    (x b, y b) = (Z.of_nat ri, Z.of_nat ci) ∧
    phys g ri ci = Some BENDER_CHAR ∧
    (∀ ri' ci', phys g ri' ci' = Some BENDER_CHAR →
                (ri < ri' ∨ (ri = ri' ∧ ci ≤ ci'))%nat) ∧
    cell (rows b) (x b) (y b) = Ok BENDER_CHAR ∧
    check_current_cell b = (Ok tt, b) ∧
    finished b = (Ok false, b).
Proof. apply construction_first. Qed.

Lemma construction_start_witness :
  ∃ ri ci,
    (x twin_start, y twin_start) = (Z.of_nat ri, Z.of_nat ci) ∧
    phys twin_board ri ci = Some BENDER_CHAR ∧
    (∀ ri' ci', phys twin_board ri' ci' = Some BENDER_CHAR →
                (ri < ri' ∨ (ri = ri' ∧ ci ≤ ci'))%nat) ∧
    cell (rows twin_start) (x twin_start) (y twin_start) = Ok BENDER_CHAR ∧
    check_current_cell twin_start = (Ok tt, twin_start) ∧
    finished twin_start = (Ok false, twin_start).
Proof. exact (construction_start twin_board twin_start eq_refl). Defined.

End start.

(** ** Walled boards *)

Section walls.

Lemma walled_enclosed g : walled g = true → enclosed g.
Proof.
  unfold walled. rewrite forallb_forall. intros Hall ri ci Hopen.
  assert ((ri, ci) ∈ slots g) as Hin.
  { unfold open_cell, phys in Hopen.
    destruct (g !! ri) as [row|] eqn:Hri; [simpl in Hopen|done].
    destruct (row !! ci) as [c|] eqn:Hci; [|done].
    unfold slots. apply list_elem_of_bind. exists (ri, row). split.
    - apply list_elem_of_fmap. exists ci. split; [done|].
      apply elem_of_seq. apply lookup_lt_Some in Hci. lia.
    - apply elem_of_lookup_imap. eauto. }
  apply list_elem_of_In, Hall in Hin. simpl in Hin. rewrite Hopen in Hin.
  simpl in Hin. unfold on_board in Hin.
  repeat (apply andb_true_iff in Hin as [Hin ?]).
  repeat match goal with
         | H : bool_decide _ = true |- _ => apply bool_decide_eq_true in H
         | H : (_ <? _)%nat = true |- _ => apply Nat.ltb_lt in H
         end.
  repeat split; assumption.
Qed.

Lemma no_forced_letterless g : no_forced g = true → letterless g.
Proof.
  unfold no_forced. rewrite forallb_forall. intros Hall ri ci c d Hp.
  assert (In c (concat g)) as Hin.
  { unfold phys in Hp. destruct (g !! ri) as [row|] eqn:Hri; [simpl in Hp|done].
    apply in_concat. exists row.
    split; apply list_elem_of_In; by eapply list_elem_of_lookup_2. }
  apply Hall in Hin. simpl in Hin.
  repeat (apply andb_true_iff in Hin as [? Hin]).
  repeat match goal with
         | H : bool_decide _ = true |- _ => apply bool_decide_eq_true in H
         end.
  by destruct d.
Qed.

Lemma entry_thin b r b1 ri ci :
  check_current_cell b = (r, b1) →
  phys (rows b1) ri ci = phys (rows b) ri ci ∨
  (phys (rows b) ri ci = Some OBSTACLE_BREAKABLE ∧
   phys (rows b1) ri ci = Some " "%char).
Proof.
  intros Hentry. rewrite (entry_rows _ _ _ Hentry).
  repeat case_match; try by left.
  destruct (bool_decide _) eqn:HX; [|done].
  apply bool_decide_eq_true in HX. subst.
  match goal with H : cell _ ?p.1 ?p.2 = Ok _ |- _ =>
    destruct (erase_spec _ p _ H) as (ri0 & ci0 & _ & Hp & Hnew & Hold & _)
  end.
  destruct (decide ((ri, ci) = (ri0, ci0))) as [[= -> ->]|Hne].
  - by right.
  - left. by apply Hold.
Qed.

(** Emptying breakable obstacles keeps every cell open or closed as it was,
    and so keeps the three conditions on the board. *)
Lemma thin_open g g' :
  (∀ ri ci, phys g' ri ci = phys g ri ci ∨
            (phys g ri ci = Some OBSTACLE_BREAKABLE ∧
             phys g' ri ci = Some " "%char)) →
  (∀ ri ci, open_cell g' ri ci = open_cell g ri ci) ∧
  (∀ ri ci, is_Some (phys g' ri ci) ↔ is_Some (phys g ri ci)) ∧
  (∀ ri ci, phys g ri ci = Some TELEPORT_CHAR →
            phys g' ri ci = Some TELEPORT_CHAR) ∧
  (letterless g → letterless g').
Proof.
  intros Hthin. split; [|split; [|split]].
  - intros ri ci. unfold open_cell.
    destruct (Hthin ri ci) as [->|[-> ->]]; done.
  - intros ri ci. destruct (Hthin ri ci) as [->|[-> ->]]; [done|].
    split; eauto.
  - intros ri ci HT. destruct (Hthin ri ci) as [->|[HX _]]; [done|].
    rewrite HT in HX. discriminate HX.
  - intros Hg ri ci c d Hp. destruct (Hthin ri ci) as [Heq|[_ Hnew]].
    + rewrite Heq in Hp. by eapply Hg.
    + rewrite Hnew in Hp. injection Hp as <-.
      destruct d; simpl; rewrite !elem_of_cons, elem_of_nil;
        intros [|[|[]]]; done.
Qed.

Lemma thin_enclosed g g' :
  (∀ ri ci, phys g' ri ci = phys g ri ci ∨
            (phys g ri ci = Some OBSTACLE_BREAKABLE ∧
             phys g' ri ci = Some " "%char)) →
  enclosed g → enclosed g'.
Proof.
  intros (Hopen & Hon & _)%thin_open Hg ri ci Hc. rewrite Hopen in Hc.
  rewrite !Hon. by apply Hg.
Qed.

(** From an open cell of an enclosed board every neighbouring cell can be
    read, at non-negative coordinates. *)
Lemma neighbour_inside b ri ci d :
  enclosed (rows b) →
  x b = Z.of_nat ri → y b = Z.of_nat ci →
  open_cell (rows b) ri ci = true →
  ∃ ri' ci' c',
    x b + dx (directions d) = Z.of_nat ri' ∧
    y b + dy (directions d) = Z.of_nat ci' ∧
    phys (rows b) ri' ci' = Some c' ∧
    neighbour b d = Ok c'.
Proof.
  intros Hg Hx Hy Hopen.
  destruct (Hg ri ci Hopen) as (Hri & Hci & [cn Hn] & [cs Hs] & [cw Hw] & [ce He]).
  unfold neighbour. rewrite Hx, Hy.
  destruct d; simpl.
  - exists (S ri), ci, cs. split; [lia|]. split; [lia|]. split; [done|].
    replace (Z.of_nat ri + 1) with (Z.of_nat (S ri)) by lia.
    rewrite Z.add_0_r. by apply cell_of_nat.
  - exists ri, (S ci), ce. split; [lia|]. split; [lia|]. split; [done|].
    replace (Z.of_nat ci + 1) with (Z.of_nat (S ci)) by lia.
    rewrite Z.add_0_r. by apply cell_of_nat.
  - exists (ri - 1)%nat, ci, cn. split; [lia|]. split; [lia|]. split; [done|].
    replace (Z.of_nat ri + -1) with (Z.of_nat (ri - 1)) by lia.
    rewrite Z.add_0_r. by apply cell_of_nat.
  - exists ri, (ci - 1)%nat, cw. split; [lia|]. split; [lia|]. split; [done|].
    replace (Z.of_nat ci + -1) with (Z.of_nat (ci - 1)) by lia.
    rewrite Z.add_0_r. by apply cell_of_nat.
Qed.

Lemma inside_cell b :
  inside b →
  ∃ ri ci c, x b = Z.of_nat ri ∧ y b = Z.of_nat ci ∧
    phys (rows b) ri ci = Some c ∧ c ≠ OBSTACLE_UNBREAKABLE ∧
    cell (rows b) (x b) (y b) = Ok c.
Proof.
  intros (ri & ci & Hx & Hy & Hopen). unfold open_cell in Hopen.
  destruct (phys (rows b) ri ci) as [c|] eqn:Hp; [|done].
  apply bool_decide_eq_true in Hopen. exists ri, ci, c.
  rewrite Hx, Hy. repeat split; try done. by apply cell_of_nat.
Qed.

Lemma open_cell_Some g ri ci c :
  phys g ri ci = Some c → c ≠ OBSTACLE_UNBREAKABLE → open_cell g ri ci = true.
Proof. intros Hp Hc. unfold open_cell. rewrite Hp. by apply bool_decide_eq_true. Qed.

(** The entry effects keep the walker inside and cannot raise
    [IndexError]. *)
Lemma entry_inside b r b1 :
  teleport_onto b → inside b →
  check_current_cell b = (r, b1) →
  r ≠ Raise IndexError ∧ (r = Ok tt → inside b1).
Proof.
  intros Honto Hin Hentry.
  pose proof (λ ri ci, entry_thin b r b1 ri ci Hentry) as Hthin.
  apply thin_open in Hthin as (Hopen & _ & HT & _).
  destruct (inside_cell b Hin) as (ri & ci & c & Hx & Hy & Hp & Hc & Hcell).
  rewrite check_current_cell_eval in Hentry. unfold entry_result in Hentry.
  rewrite Hcell in Hentry. case_bool_decide as Hc'.
  - destruct (teleport b) as [t|] eqn:Ht; [|by injection Hentry as <- <-].
    destruct (t !! (x b, y b)) as [p|] eqn:Hq; [|by injection Hentry as <- <-].
    destruct (Honto t _ p Ht Hq) as (rp & cp & -> & Hp').
    simpl in Hentry. rewrite (cell_of_nat _ _ _ _ Hp') in Hentry.
    injection Hentry as <- <-. split; [done|]. intros _.
    exists rp, cp. split; [done|]. split; [done|].
    change (open_cell
              (rows (entry_effects b c (Z.of_nat rp, Z.of_nat cp) TELEPORT_CHAR))
              rp cp = true).
    rewrite Hopen. by eapply open_cell_Some.
  - injection Hentry as <- <-. split; [done|]. intros _.
    exists ri, ci. split; [done|]. split; [done|].
    change (open_cell (rows (entry_effects b c (x b, y b) c)) ri ci = true).
    rewrite Hopen. by eapply open_cell_Some.
Qed.

Lemma decide_inside b r b' :
  enclosed (rows b) → letterless (rows b) → inside b →
  decide_and_move b = (r, b') →
  r ≠ Raise IndexError ∧ (r = Ok tt → inside b').
Proof.
  intros Hg Hl Hin Hgo.
  destruct (inside_cell b Hin) as (ri & ci & c & Hx & Hy & Hp & Hc & Hcell).
  assert (open_cell (rows b) ri ci = true) as Hopen by by eapply open_cell_Some.
  apply decide_and_move_cases in Hgo
    as [(_ & _ & Hraise)|(c0 & Hc0 & [(d & Hd & _)|(_ & Hcase)])].
  - congruence.
  - rewrite Hcell in Hc0. injection Hc0 as <-. by destruct (Hl ri ci c d).
  - destruct Hcase as [(d & Hd & -> & ->)|[(-> & _)|(_ & _ & d & Hd)]].
    + split; [done|]. intros _.
      destruct (neighbour_inside b ri ci d Hg Hx Hy Hopen)
        as (ri' & ci' & c' & Hx' & Hy' & Hp' & Hn).
      exists ri', ci'. split; [done|]. split; [done|]. simpl.
      apply (open_cell_Some _ _ _ c'); [done|].
      unfold blocked in Hd. rewrite Hn in Hd. injection Hd as Hd.
      apply bool_decide_eq_false in Hd. tauto.
    + done.
    + destruct (neighbour_inside b ri ci d Hg Hx Hy Hopen)
        as (_ & _ & c' & _ & _ & _ & Hn). congruence.
Qed.

Lemma go_inside b r b' :
  enclosed (rows b) → letterless (rows b) → teleport_onto b → inside b →
  go b = (r, b') →
  r ≠ Raise IndexError ∧ (r = Ok tt → inside b').
Proof.
  intros Hg Hl Honto Hin Hgo. rewrite go_unfold in Hgo.
  destruct (check_current_cell b) as [r1 b1] eqn:Hentry.
  destruct (entry_inside b r1 b1 Honto Hin Hentry) as [Hr1 Hb1].
  pose proof (λ ri ci, entry_thin b r1 b1 ri ci Hentry) as Hthin.
  destruct r1 as [[]|ex].
  - apply (decide_inside b1); [by eapply thin_enclosed| |by apply Hb1|done].
    by eapply thin_open.
  - injection Hgo as <- <-. split; [done|]. intros [=].
Qed.

Lemma go_onto b r b' : teleport_onto b → go b = (r, b') → teleport_onto b'.
Proof.
  intros Hb Hgo t q p Ht Hq. rewrite (go_teleport _ _ _ Hgo) in Ht.
  destruct (Hb t q p Ht Hq) as (ri & ci & -> & Hp). exists ri, ci.
  split; [done|].
  pose proof (λ ri ci, go_thin b r b' ri ci Hgo) as (_ & _ & HT & _)%thin_open.
  by apply HT.
Qed.

Lemma init_onto g b : __init__ g = Ok b → teleport_onto b.
Proof.
  intros (Hr & _ & Ht & _)%init_Ok t q p Hb Hq. rewrite Hr.
  apply elem_of_positions. rewrite Ht in Hb.
  by eapply get_teleporters_positions.
Qed.

Lemma init_inside g b : __init__ g = Ok b → inside b.
Proof.
  intros Hinit. apply init_Ok in Hinit as Hb. destruct Hb as (Hr & _).
  destruct (construction_first g b Hinit) as (ri & ci & [= Hx Hy] & Hp & _).
  exists ri, ci. split; [done|]. split; [done|]. rewrite Hr.
  by eapply open_cell_Some.
Qed.

Lemma steps_inside k b bk :
  enclosed (rows b) → letterless (rows b) → teleport_onto b → inside b →
  steps k b = Some bk →
  enclosed (rows bk) ∧ letterless (rows bk) ∧ teleport_onto bk ∧ inside bk.
Proof.
  revert b. induction k as [|k IH]; intros b Hg Hl Honto Hin;
    [by intros [= <-]|].
  intros (b' & Hgo & Hk)%steps_S.
  pose proof (λ ri ci, go_thin b _ b' ri ci Hgo) as Hthin.
  apply (IH b'); [by eapply thin_enclosed|by eapply thin_open| |
                  by eapply go_inside|done].
  by eapply go_onto.
Qed.

Lemma drive_raise fuel b ex bf :
  drive fuel b = Some (Raise ex, bf) →
  ∃ k bk, steps k b = Some bk ∧
          (finished bk = (Raise ex, bf) ∨ go bk = (Raise ex, bf)).
Proof.
  revert b. induction fuel as [|fuel IH]; intros b; [done|]. simpl.
  destruct (finished b) as [[[]|ex'] b1] eqn:Hfin; [done| |].
  - apply finished_state in Hfin as Hb. subst b1.
    destruct (go b) as [[[]|ex'] b2] eqn:Hgo.
    + intros (k & bk & Hk & Hend)%IH. exists (S k), bk. simpl.
      by rewrite Hgo.
    + intros [= <- <-]. exists 0%nat, b. eauto.
  - intros [= <- <-]. exists 0%nat, b. eauto.
Qed.

(** The invariant of a run on an enclosed board without direction letters. *)
Lemma walled_invariant g b k bk :
  walled g = true →
  no_forced g = true →
  __init__ g = Ok b →
  steps k b = Some bk →
  inside bk ∧
  (∀ d, ∃ c, neighbour bk d = Ok c) ∧
  (∃ fin : bool, finished bk = (Ok fin, bk)) ∧
  (∀ r b', go bk = (r, b') → r ≠ Raise IndexError) ∧
  (∀ fuel ex bf, drive fuel bk = Some (Raise ex, bf) → ex ≠ IndexError).
Proof.
  intros Hw%walled_enclosed Hf%no_forced_letterless Hinit Hk.
  apply init_Ok in Hinit as Hb. destruct Hb as (Hr & _). rewrite <-Hr in Hw, Hf.
  assert (∀ k' bk', steps k' bk = Some bk' →
            enclosed (rows bk') ∧ letterless (rows bk') ∧
            teleport_onto bk' ∧ inside bk') as Hinv.
  { intros k' bk' Hk'.
    destruct (steps_inside k b bk Hw Hf (init_onto _ _ Hinit)
                (init_inside _ _ Hinit) Hk) as (? & ? & ? & ?).
    by apply (steps_inside k' bk). }
  assert (∀ bk', inside bk' → ∃ fin : bool, finished bk' = (Ok fin, bk'))
    as Hfin.
  { intros bk' (_ & _ & c & _ & _ & _ & _ & Hc)%inside_cell.
    rewrite (finished_eval _ _ Hc). eauto. }
  destruct (Hinv 0%nat bk eq_refl) as (Hg & Hl & Honto & Hin).
  split; [done|]. split; [|split; [|split]].
  - intros d. destruct Hin as (ri & ci & Hx & Hy & Hopen).
    destruct (neighbour_inside bk ri ci d Hg Hx Hy Hopen)
      as (_ & _ & c & _ & _ & _ & Hn). eauto.
  - by apply Hfin.
  - intros r b' Hgo. by eapply go_inside.
  - intros fuel ex bf (k' & bk' & Hk' & Hend)%drive_raise.
    destruct (Hinv k' bk' Hk') as (Hg' & Hl' & Honto' & Hin').
    destruct Hend as [Hend|Hend].
    + destruct (Hfin bk' Hin') as [fin Hv]. congruence.
    + intros ->. by destruct (go_inside bk' _ _ Hg' Hl' Honto' Hin' Hend).
Qed.

(** On a board where every cell other than '#' is surrounded by cells of
    the board and no cell holds a direction letter, the walker never leaves
    the board: at every step of a run from construction it stands at
    non-negative coordinates on a cell that is not '#', its four
    neighbouring cells can be read, and neither [finished], [go] nor the
    driver loop raises [IndexError]. *)
Theorem walled_run g b k bk :
  walled g = true →
  no_forced g = true →
  __init__ g = Ok b →
  steps k b = Some bk →
  inside bk ∧
  (∀ d, ∃ c, neighbour bk d = Ok c) ∧
  (∃ fin : bool, finished bk = (Ok fin, bk)) ∧
  (∀ r b', go bk = (r, b') → r ≠ Raise IndexError) ∧
  (∀ fuel ex bf, drive fuel bk = Some (Raise ex, bf) → ex ≠ IndexError).
Proof. apply walled_invariant. Qed.

Lemma walled_run_witness :
  inside docstring_corner ∧ ∀ d, ∃ c, neighbour docstring_corner d = Ok c.
Proof.
  pose proof (walled_run docstring_board docstring_start 2 docstring_corner
                eq_refl eq_refl eq_refl eq_refl) as H.
  exact (conj (proj1 H) (proj1 (proj2 H))).
Defined.

(** On such a board with no teleporter or with exactly two, the only
    exception a step of a run from construction can raise is
    [BenderTrapped]. *)
Theorem walled_only_trapped g b k bk ex b' :
  walled g = true →
  no_forced g = true →
  count_code TELEPORT_CHAR g ≠ 1%nat →
  (count_code TELEPORT_CHAR g ≤ 2)%nat →
  __init__ g = Ok b →
  steps k b = Some bk →
  go bk = (Raise ex, b') →
  ex = BenderTrapped.
Proof.
  intros Hw Hf Hne Hle Hinit Hk Hgo.
  destruct (walled_invariant g b k bk Hw Hf Hinit Hk) as (Hin & _ & _ & Hidx & _).
  specialize (Hidx _ _ Hgo).
  apply init_Ok in Hinit as Hb. destruct Hb as (Hr & _ & Ht & _).
  assert (cell (rows bk) (x bk) (y bk) = Ok TELEPORT_CHAR →
          ∃ t0 t1, positions TELEPORT_CHAR g = [t0; t1] ∧
                   ((x bk, y bk) = t0 ∨ (x bk, y bk) = t1)) as Hon.
  { intros Hc.
    destruct (inside_cell bk Hin) as (ri & ci & c & Hx & Hy & Hp & _ & Hc').
    rewrite Hc in Hc'. injection Hc' as <-.
    assert (phys g ri ci = Some TELEPORT_CHAR) as Hg.
    { destruct (steps_thin k b bk ri ci Hk) as [Heq|[_ Hnew]].
      - by rewrite <-Hr, <-Heq.
      - rewrite Hp in Hnew. discriminate Hnew. }
    assert ((x bk, y bk) ∈ positions TELEPORT_CHAR g) as Hpos.
    { apply elem_of_positions. exists ri, ci. by rewrite Hx, Hy. }
    rewrite <-length_positions in Hne, Hle.
    destruct (positions TELEPORT_CHAR g) as [|t0 [|t1 [|t2 rest]]];
      simpl in *; [by apply elem_of_nil in Hpos|done| |lia].
    exists t0, t1. split; [done|].
    apply elem_of_cons in Hpos as [?|Hpos]; [by left|right].
    by apply list_elem_of_singleton in Hpos. }
  pose proof (steps_teleport _ _ _ Hk) as Htk. rewrite Ht in Htk.
  destruct (go_raise_cases bk ex b' Hgo) as [_ Hex].
  destruct ex; [done| | |done|done].
  - destruct Hex as (Hc & Hnone & _).
    destruct (Hon Hc) as (t0 & t1 & Hpos & _).
    destruct (get_teleporters_pair g t0 t1 [] Hpos) as [_ Hget]. congruence.
  - destruct Hex as (Hc & _ & t & Hsome & Hmiss).
    destruct (Hon Hc) as (t0 & t1 & Hpos & Hat).
    destruct (get_teleporters_pair g t0 t1 [] Hpos) as [Hne' Hget].
    rewrite Hsome, Hget in Htk. injection Htk as ->.
    destruct Hat as [Hat|Hat]; rewrite Hat in Hmiss.
    + by rewrite lookup_insert_ne, lookup_insert_eq in Hmiss.
    + by rewrite lookup_insert_eq in Hmiss.
Qed.

Lemma walled_only_trapped_witness :
  go cage_start = (Raise BenderTrapped, cage_start) ∧
  BenderTrapped = BenderTrapped.
Proof.
  assert (count_code TELEPORT_CHAR cage_board ≠ 1%nat) as Hne by by_compute.
  assert (count_code TELEPORT_CHAR cage_board ≤ 2)%nat as Hle by by_compute.
  split; [reflexivity|].
  exact (walled_only_trapped cage_board cage_start 0 cage_start BenderTrapped
           cage_start eq_refl eq_refl Hne Hle eq_refl eq_refl eq_refl).
Defined.

End walls.

(** ** Looking over the edge *)

Section edges.

Lemma getitem_last {A} (l : list A) :
  l ≠ [] → getitem l (-1) = getitem l (Z.of_nat (length l) - 1).
Proof.
  intros Hl. unfold getitem, index. cbv zeta.
  assert (0 < length l)%nat by (destruct l; [done | simpl; lia]).
  rewrite (bool_decide_eq_true_2 (-1 < 0)) by lia.
  rewrite (bool_decide_eq_false_2 (Z.of_nat (length l) - 1 < 0)) by lia.
  rewrite !bool_decide_eq_true_2 by lia.
  by replace (-1 + Z.of_nat (length l)) with (Z.of_nat (length l) - 1) by lia.
Qed.

Lemma getitem_before {A} (l : list A) k :
  k < - Z.of_nat (length l) → getitem l k = Raise IndexError.
Proof.
  intros Hk. unfold getitem, index. cbv zeta.
  rewrite (bool_decide_eq_true_2 (k < 0)) by lia.
  by rewrite bool_decide_eq_false_2 by lia.
Qed.

Lemma getitem_past {A} (l : list A) k :
  Z.of_nat (length l) ≤ k → getitem l k = Raise IndexError.
Proof.
  intros Hk. unfold getitem, index. cbv zeta.
  rewrite (bool_decide_eq_false_2 (k < 0)) by lia.
  by rewrite bool_decide_eq_false_2 by lia.
Qed.

(** The neighbour lookup is by Python coordinate, with no bounds check of
    its own.  With [h] rows and the walker's row [row] of length [wd]: from
    coordinate 0 a look north or west wraps around to the last row or the
    last cell of the row; from coordinate [h - 1] or [wd - 1] a look south
    or east raises [IndexError]; and for a walker that is itself at a
    negative coordinate the pattern shifts: from coordinate -1, the last
    row or column under its negative name, a look south or east reads row
    or column 0, and from coordinate [- h] or [- wd] a look north or west
    raises [IndexError]. *)
Theorem neighbour_over_edge b row :
  getitem (rows b) (x b) = Ok row →
  (x b = 0 →
   neighbour b n = cell (rows b) (Z.of_nat (length (rows b)) - 1) (y b)) ∧
  (y b = 0 →
   neighbour b w = getitem row (Z.of_nat (length row) - 1)) ∧
  (x b = Z.of_nat (length (rows b)) - 1 → neighbour b s = Raise IndexError) ∧
  (y b = Z.of_nat (length row) - 1 → neighbour b e = Raise IndexError) ∧
  (x b = -1 → neighbour b s = cell (rows b) 0 (y b)) ∧
  (y b = -1 → neighbour b e = getitem row 0) ∧
  (x b = - Z.of_nat (length (rows b)) → neighbour b n = Raise IndexError) ∧
  (y b = - Z.of_nat (length row) → neighbour b w = Raise IndexError).
Proof.
  intros Hrow. unfold neighbour, cell. simpl.
  assert (rows b ≠ []) as Hne.
  { intros Hnil. rewrite Hnil in Hrow. unfold getitem, index in Hrow.
    simpl in Hrow. by repeat case_bool_decide. }
  split; [|split; [|split; [|split; [|split; [|split; [|split]]]]]].
  - intros ->. simpl. by rewrite Z.add_0_r, getitem_last.
  - intros ->. rewrite Z.add_0_r, Hrow. simpl.
    destruct (decide (row = [])) as [->|Hrne]; [done|].
    by apply getitem_last.
  - intros ->. by rewrite getitem_past by lia.
  - intros ->. rewrite Z.add_0_r, Hrow. apply getitem_past. lia.
  - intros ->. by rewrite Z.add_0_r.
  - intros ->. by rewrite Z.add_0_r, Hrow.
  - intros ->. by rewrite getitem_before by lia.
  - intros ->. rewrite Z.add_0_r, Hrow. apply getitem_before. lia.
Qed.

Lemma neighbour_over_edge_witness :
  neighbour edge_walker w = Ok "#"%char ∧
  neighbour wrap_walker s = Ok "N"%char.
Proof.
  split.
  - exact (proj1 (proj2 (neighbour_over_edge edge_walker
                           (String.list_ascii_of_string "#w@#") eq_refl))
             eq_refl).
  - exact (proj1 (proj2 (proj2 (proj2 (proj2
             (neighbour_over_edge wrap_walker
                (String.list_ascii_of_string "#TT#") eq_refl)))))
             eq_refl).
Defined.

End edges.
